(** * Dynamic tool identity and dispatch of the Siri-shortcuts MCP server

    A shallow embedding of [src/shortcuts.ts]: the name sanitizer
    ([sanitizeShortcutName]), the uniqueness resolver
    ([generateUniqueSanitizedName]), the shortcut registry filled by
    [listShortcuts] and the [CallToolRequestSchema] handler of
    [createServer], followed by the properties the specification states
    about them. *)

From Stdlib Require Import ZArith NArith Ascii String SpecFloat.
From stdpp Require Import base option list gmap pretty.

Local Open Scope Z_scope.
Local Open Scope nat_scope.

(** ** JavaScript strings

    A JavaScript string is a sequence of UTF-16 code units.  The regular
    expressions of the source carry no [u] flag, so they work on code units
    one at a time; a code unit is kept as its number. *)

Abbreviation code_unit := N (only parsing).
Abbreviation jsstring := (list N) (only parsing).

(** String literals of the source, written with ASCII characters. *)
Definition js (s : string) : jsstring := N_of_ascii <$> list_ascii_of_string s.

(** [String.prototype.repeat]. *)
Definition String_repeat (s : jsstring) (count : nat) : jsstring :=
  concat (replicate count s).

Definition underscore : code_unit := 95%N.

Definition is_underscore (c : code_unit) : bool := (c =? underscore)%N.

(** The character class [[a-z0-9_]]. *)
Definition is_token_unit (c : code_unit) : bool :=
  ((97 <=? c)%N && (c <=? 122)%N) || ((48 <=? c)%N && (c <=? 57)%N) || is_underscore c.

(** [String.prototype.substring(start, end)]: both indices are clamped to
    [0, length] and swapped when [start > end]. *)
Definition substring (s : jsstring) (start finish : Z) : jsstring :=
  let len := Z.of_nat (length s) in
  let a := Z.min (Z.max start 0) len in
  let b := Z.min (Z.max finish 0) len in
  let from := Z.min a b in
  let to := Z.max a b in
  take (Z.to_nat (to - from)) (drop (Z.to_nat from) s).

(** [String.prototype.startsWith]. *)
Fixpoint startsWith (s p : jsstring) {struct p} : bool :=
  match p, s with
  | [], _ => true
  | _ :: _, [] => false
  | c :: p', d :: s' => (c =? d)%N && startsWith s' p'
  end.

(** [String.prototype.replace(pattern, replacement)] with a string pattern:
    only the first occurrence of [pat] is replaced. *)
Fixpoint replace_first (s pat rep : jsstring) : jsstring :=
  if startsWith s pat then rep ++ drop (length pat) s
  else match s with
       | [] => []
       | c :: s' => c :: replace_first s' pat rep
       end.

(** [String.prototype.toLowerCase] is a builtin whose Unicode case table is
    not part of the repository.  It is taken as an interface; the one fact
    used about it is its behaviour on ASCII text, where it maps [A-Z] to
    [a-z] and leaves every other code unit alone. *)
Definition ascii_lower (c : code_unit) : code_unit :=
  if ((65 <=? c)%N && (c <=? 90)%N) then (c + 32)%N else c.

Class LowerCase := {
  toLowerCase : jsstring → jsstring;
  toLowerCase_ascii :
    ∀ s, Forall (λ c, (c < 128)%N) s → toLowerCase s = ascii_lower <$> s
}.

(** The instance that lower-cases ASCII letters only.  It agrees with every
    other instance on ASCII input. *)
#[export] Instance ascii_LowerCase : LowerCase | 100 :=
  {| toLowerCase s := ascii_lower <$> s;
     toLowerCase_ascii := λ s _, eq_refl |}.

(** ** The constraints on a tool token, as executable tests *)

Definition token_units (s : jsstring) : bool := forallb is_token_unit s.

Definition leading_underscore (s : jsstring) : bool :=
  match s with
  | c :: _ => is_underscore c
  | [] => false
  end.

Definition trailing_underscore (s : jsstring) : bool :=
  match last s with
  | Some c => is_underscore c
  | None => false
  end.

Fixpoint double_underscore (s : jsstring) : bool :=
  match s with
  | c :: r => (is_underscore c && leading_underscore r) || double_underscore r
  | [] => false
  end.

(** The four constraints together. *)
Definition well_formed_token (s : jsstring) : bool :=
  token_units s && negb (leading_underscore s) && negb (trailing_underscore s)
  && negb (double_underscore s).

(** The character class [[0-9]]. *)
Definition is_digit_unit (c : code_unit) : bool := (48 <=? c)%N && (c <=? 57)%N.

(** ** The regular-expression replacements of the sanitizer *)

(** [.replace(/[^a-z0-9_]/g, "_")] *)
Definition replace_non_token (s : jsstring) : jsstring :=
  (λ c, if is_token_unit c then c else underscore) <$> s.

(** [.replace(/_+/g, "_")]: every maximal run of underscores becomes one
    underscore, so an underscore is dropped exactly when another one
    follows it. *)
Fixpoint replace_underscore_runs (s : jsstring) : jsstring :=
  match s with
  | [] => []
  | c :: r =>
      if is_underscore c && leading_underscore r
      then replace_underscore_runs r
      else c :: replace_underscore_runs r
  end.

(** [.replace(/_$/, "")]: one underscore at the very end is removed. *)
Definition replace_trailing_underscore (s : jsstring) : jsstring :=
  match last s with
  | Some c => if is_underscore c then take (length s - 1) s else s
  | None => s
  end.

(** [.replace(/^_|_$/g, "")]: the first alternative can only match at index
    0, the second only at the last index of what follows that match. *)
Definition replace_edge_underscores (s : jsstring) : jsstring :=
  match s with
  | c :: r => if is_underscore c then replace_trailing_underscore r
              else replace_trailing_underscore s
  | [] => []
  end.

(** ** The name sanitizer *)

(** The literal ["run_shortcut_"] ([prefix] in the source; the name [prefix]
    is taken by the list library). *)
Definition toolPrefix : jsstring := js "run_shortcut_".
Definition maxToolNameLength : Z := 64.
Definition maxSanitizedLength : Z := maxToolNameLength - Z.of_nat (length toolPrefix).

Section WithLowerCase.
Context `{LowerCase}.

Definition sanitizeShortcutName (name : jsstring) : jsstring :=
  let sanitized :=
    replace_edge_underscores
      (replace_underscore_runs (replace_non_token (toLowerCase name))) in
  if (Z.of_nat (length sanitized) >? maxSanitizedLength)%Z
  then replace_trailing_underscore (substring sanitized 0 maxSanitizedLength)
  else sanitized.

End WithLowerCase.

(** ** The uniqueness resolver *)

(** The counter of the resolver is a JavaScript number, a double.  From 1 it
    counts exactly up to [2^53]; there [counter++] rounds back to [2^53]
    and the counter stays.  Below [10^21] the template literal
    [`_${counter}`] prints the integer in plain decimal digits. *)
Definition counter_limit : N := (2 ^ 53)%N.

Definition increment (counter : N) : N :=
  if (counter <? counter_limit)%N then (counter + 1)%N else counter.

Definition Number_toString (n : N) : jsstring := js (pretty n).

(** One pass through the body of the [while] loop: the candidate built from
    [baseSanitized] and the current [counter]. *)
Definition suffixed (baseSanitized : jsstring) (counter : N) : jsstring :=
  let suffix := js "_" ++ Number_toString counter in
  let maxLength := (64 - Z.of_nat (length toolPrefix))%Z in
  if (Z.of_nat (length baseSanitized) + Z.of_nat (length suffix) >? maxLength)%Z
  then
    let truncatedBase :=
      substring baseSanitized 0 (maxLength - Z.of_nat (length suffix)) in
    truncatedBase ++ suffix
  else baseSanitized ++ suffix.

(** The [while] loop, with the number of tests of its condition bounded by
    [fuel]; [None] when the fuel runs out before the loop exits. *)
Fixpoint unique_loop (fuel : nat) (existingSanitizedNames : gset (list N))
    (baseSanitized uniqueSanitized : jsstring) (counter : N) : option jsstring :=
  match fuel with
  | O => None
  | S fuel' =>
      if decide (uniqueSanitized ∈ existingSanitizedNames)
      then unique_loop fuel' existingSanitizedNames baseSanitized
             (suffixed baseSanitized counter) (increment counter)
      else Some uniqueSanitized
  end.

Section WithLowerCase.
Context `{LowerCase}.

(** [None] stands for a loop that never exits.  The fuel given here loses
    nothing: see [unique_loop_fuel_irrelevant]. *)
Definition generateUniqueSanitizedName (originalName : jsstring)
    (existingSanitizedNames : gset (list N)) : option jsstring :=
  let baseSanitized := sanitizeShortcutName originalName in
  unique_loop (size existingSanitizedNames + 2) existingSanitizedNames
    baseSanitized baseSanitized 1%N.

End WithLowerCase.

(** ** The shortcut registry

    [shortcutMap] is a JavaScript [Map]: keys are unique, entries are kept
    in insertion order, and [set] on a key already present changes its value
    in place. *)
Abbreviation ShortcutMap := (list (list N * list N)) (only parsing).

Fixpoint Map_set (key value : jsstring) (m : ShortcutMap) : ShortcutMap :=
  match m with
  | [] => [(key, value)]
  | (k, v) :: m' =>
      if decide (k = key) then (k, value) :: m' else (k, v) :: Map_set key value m'
  end.

Fixpoint Map_get (key : jsstring) (m : ShortcutMap) : option jsstring :=
  match m with
  | [] => None
  | (k, v) :: m' => if decide (k = key) then Some v else Map_get key m'
  end.

(** [shortcutMap.set] for each pair of [a], in order. *)
Definition Map_set_all (m : ShortcutMap) (a : list (list N * list N)) : ShortcutMap :=
  foldl (λ m' p, Map_set p.1 p.2 m') m a.

(** The token a name is left with after the assignments [a] are written to
    a map in order: that of its last assignment. *)
Fixpoint last_assigned (name : jsstring) (a : list (list N * list N)) : option jsstring :=
  match a with
  | [] => None
  | (k, v) :: a' =>
      match last_assigned name a' with
      | Some t => Some t
      | None => if decide (k = name) then Some v else None
      end
  end.

(** [Array.from(shortcutMap.entries()).find(([_, value]) => value === sanitizedName)?.[0]] *)
Fixpoint find_by_value (sanitizedName : jsstring) (m : ShortcutMap) : option jsstring :=
  match m with
  | [] => None
  | (k, v) :: m' =>
      if decide (v = sanitizedName) then Some k else find_by_value sanitizedName m'
  end.

Section WithLowerCase.
Context `{LowerCase}.

(** The [shortcuts.forEach] of [listShortcuts]: the names of one enumeration
    are given their tokens in order, against the set of tokens handed out so
    far in this enumeration. *)
Fixpoint forEach_shortcut (names : list (list N)) (shortcutMap : ShortcutMap)
    (existingSanitizedNames : gset (list N)) : option ShortcutMap :=
  match names with
  | [] => Some shortcutMap
  | name :: names' =>
      uniqueSanitizedName ← generateUniqueSanitizedName name existingSanitizedNames;
      forEach_shortcut names' (Map_set name uniqueSanitizedName shortcutMap)
        ({[uniqueSanitizedName]} ∪ existingSanitizedNames)
  end.

(** The update of the registry by one successful enumeration: the set of
    claimed tokens starts empty, the map is the one left by earlier calls. *)
Definition refresh (names : list (list N)) (shortcutMap : ShortcutMap) : option ShortcutMap :=
  forEach_shortcut names shortcutMap ∅.

(** The pairs [(shortcut.name, uniqueSanitizedName)] that the same loop
    passes to [shortcutMap.set], in order: the assignments of one
    enumeration.  They do not depend on the map. *)
Fixpoint assignments (names : list (list N)) (existingSanitizedNames : gset (list N))
    : option (list (list N * list N)) :=
  match names with
  | [] => Some []
  | name :: names' =>
      uniqueSanitizedName ← generateUniqueSanitizedName name existingSanitizedNames;
      rest ← assignments names' ({[uniqueSanitizedName]} ∪ existingSanitizedNames);
      Some ((name, uniqueSanitizedName) :: rest)
  end.

End WithLowerCase.

(** The outcome of [exec("shortcuts list")]: an error, output on stderr, or
    the trimmed non-blank lines of stdout. *)
Inductive ExecOutcome :=
  | ExecFailed
  | ExecStderr
  | ExecLines (names : list (list N)).

Inductive ErrorCode := MethodNotFound | InvalidParams | InternalError.

Section WithLowerCase.
Context `{LowerCase}.

(** The effect of [listShortcuts] on the registry: the map is left alone
    when the command fails (the promise is rejected), otherwise it is
    updated from the listed names. *)
Definition listShortcuts (out : ExecOutcome) (shortcutMap : ShortcutMap)
    : option ShortcutMap :=
  match out with
  | ExecFailed | ExecStderr => Some shortcutMap
  | ExecLines names => refresh names shortcutMap
  end.

End WithLowerCase.

(** ** The tool-call handler of [createServer] *)

Module ToolName.
Definition LIST_SHORTCUTS : jsstring := js "list_shortcuts".
Definition OPEN_SHORTCUT : jsstring := js "open_shortcut".
Definition RUN_SHORTCUT : jsstring := js "run_shortcut".
End ToolName.

(** The [arguments] object of a request, with string-valued properties. *)
Abbreviation Args := (list (list N * list N)) (only parsing).

(** What the handler hands to the execution bridge once the tool name is
    resolved. *)
Inductive BridgeCall :=
  | CallListShortcuts
  | CallOpenShortcut (args : Args)
  | CallRunShortcut (args : Args)
  | CallRunNamed (shortcutName : jsstring) (input : option (list N)).

(** What can be thrown inside the [try] block, and the [catch] clause:
    an [McpError] passes through, anything else becomes [InternalError]. *)
Inductive Thrown :=
  | McpError (code : ErrorCode)
  | OtherError.

Definition rethrow (error : Thrown) : ErrorCode :=
  match error with
  | McpError code => code
  | OtherError => InternalError
  end.

Definition isBaseTool (name : jsstring) : bool :=
  bool_decide (name ∈ [ToolName.LIST_SHORTCUTS; ToolName.OPEN_SHORTCUT; ToolName.RUN_SHORTCUT]).

Definition isDynamicTool (GENERATE_SHORTCUT_TOOLS : bool) (name : jsstring) : bool :=
  GENERATE_SHORTCUT_TOOLS && startsWith name (js "run_shortcut_").

(** The body of the [switch]: a bridge call, or a throw. *)
Definition call_switch (GENERATE_SHORTCUT_TOOLS : bool) (shortcutMap : ShortcutMap)
    (name : jsstring) (args : Args) : Thrown + BridgeCall :=
  if decide (name = ToolName.LIST_SHORTCUTS) then inr CallListShortcuts
  else if decide (name = ToolName.OPEN_SHORTCUT) then inr (CallOpenShortcut args)
  else if decide (name = ToolName.RUN_SHORTCUT) then inr (CallRunShortcut args)
  else if isDynamicTool GENERATE_SHORTCUT_TOOLS name then
    let sanitizedName := replace_first name (js "run_shortcut_") [] in
    match find_by_value sanitizedName shortcutMap with
    | Some (c :: n) => inr (CallRunNamed (c :: n) (Map_get (js "input") args))
    | Some [] | None => inl (McpError InvalidParams)
    end
  else inl (McpError MethodNotFound).

(** The handler up to the bridge call: [inl code] when it fails with an
    [McpError] of that code before anything is run. *)
Definition callTool (GENERATE_SHORTCUT_TOOLS : bool) (shortcutMap : ShortcutMap)
    (name : jsstring) (args : Args) : ErrorCode + BridgeCall :=
  if negb (isBaseTool name) && negb (isDynamicTool GENERATE_SHORTCUT_TOOLS name)
  then inl MethodNotFound
  else match call_switch GENERATE_SHORTCUT_TOOLS shortcutMap name args with
       | inl error => inl (rethrow error)
       | inr call => inr call
       end.

(** ** The catalog listing of [listShortcuts]

    [stdout.split("\n").filter((line) => line.trim()).map((line) => ({ name: line.trim() }))] *)

(** The code units that [String.prototype.trim] strips: the WhiteSpace and
    LineTerminator code points of ECMAScript (TAB, VT, FF, SP, NBSP, BOM and
    the space separators; LF, CR, LS, PS). *)
Definition is_white_space (c : code_unit) : bool :=
  bool_decide (c ∈ [9; 10; 11; 12; 13; 32; 160; 5760; 8232; 8233; 8239; 8287;
                    12288; 65279]%N)
  || ((8192 <=? c)%N && (c <=? 8202)%N).

Fixpoint trimStart (s : jsstring) : jsstring :=
  match s with
  | c :: r => if is_white_space c then trimStart r else s
  | [] => []
  end.

Definition trimEnd (s : jsstring) : jsstring := reverse (trimStart (reverse s)).

(** [String.prototype.trim]. *)
Definition trim (s : jsstring) : jsstring := trimEnd (trimStart s).

Definition line_feed : code_unit := 10%N.

(** [stdout.split("\n")]: the pieces between line feeds; an empty string
    gives one empty piece. *)
Fixpoint split_line_feed (s : jsstring) : list (list N) :=
  match s with
  | [] => [[]]
  | c :: r =>
      if (c =? line_feed)%N then [] :: split_line_feed r
      else match split_line_feed r with
           | line :: lines => (c :: line) :: lines
           | [] => [[c]]
           end
  end.

(** [Array.prototype.join]. *)
Fixpoint Array_join (sep : jsstring) (l : list (list N)) : jsstring :=
  match l with
  | [] => []
  | [s] => s
  | s :: l' => s ++ sep ++ Array_join sep l'
  end.

(** The names [listShortcuts] reads from the output of [shortcuts list]: a
    line counts when its trimmed form is a non-empty string. *)
Definition shortcut_names (stdout : jsstring) : list (list N) :=
  trim <$> filter (λ line, trim line ≠ []) (split_line_feed stdout).

(** What the callback of [exec] receives: [error] ([None] for [null], else
    its message), [stdout] and [stderr]. *)
Record ExecResult := {
  exec_error : option (list N);
  exec_stdout : list N;
  exec_stderr : list N
}.

(** The branches of the callback in [listShortcuts]: [if (error)], then
    [if (stderr)], then the listing. *)
Definition list_outcome (r : ExecResult) : ExecOutcome :=
  match exec_error r with
  | Some _ => ExecFailed
  | None =>
      if decide (exec_stderr r = []) then ExecLines (shortcut_names (exec_stdout r))
      else ExecStderr
  end.

Section WithLowerCase.
Context `{LowerCase}.

(** How the promise of [listShortcuts] settles: it is rejected with an
    [McpError] of code [InternalError] when the command fails and when it
    writes to stderr, and resolved with the listed shortcuts once the map
    is updated. *)
Definition listShortcuts_settles (out : ExecOutcome) (shortcutMap : ShortcutMap)
    : option (Thrown + list (list N)) :=
  match out with
  | ExecFailed | ExecStderr => Some (inl (McpError InternalError))
  | ExecLines names => _ ← refresh names shortcutMap; Some (inr names)
  end.

(** Refreshes one after the other, each on the map the previous one left. *)
Fixpoint refreshes (catalogs : list (list (list N))) (shortcutMap : ShortcutMap)
    : option ShortcutMap :=
  match catalogs with
  | [] => Some shortcutMap
  | names :: catalogs' => m ← refresh names shortcutMap; refreshes catalogs' m
  end.

End WithLowerCase.

(** ** The tool list of [createServer] *)

Record Tool := {
  tool_name : list N;
  tool_description : list N
}.

Definition double_quote : code_unit := 34%N.

(** [getDynamicShortcutTools]: one tool for each entry of the map, in the
    order of the map. *)
Definition getDynamicShortcutTools (shortcutMap : ShortcutMap) : list Tool :=
  (λ entry,
     {| tool_name := js "run_shortcut_" ++ entry.2;
        tool_description :=
          js "Run the " ++ [double_quote] ++ entry.1 ++ [double_quote] ++ js " shortcut" |})
  <$> shortcutMap.

(** [getBaseTools]: the three fixed tools; the names of the map are added
    to the description of [run_shortcut] when [INJECT_SHORTCUT_LIST] is set
    and the map is not empty. *)
Definition getBaseTools (INJECT_SHORTCUT_LIST : bool) (shortcutMap : ShortcutMap)
    : list Tool :=
  let runShortcutDescription :=
    js "Run a shortcut with optional input and output parameters" ++
    (if INJECT_SHORTCUT_LIST && bool_decide (0 < length shortcutMap)
     then
       let shortcutList :=
         Array_join [line_feed]
           ((λ name, js "- " ++ [double_quote] ++ name ++ [double_quote])
              <$> shortcutMap.*1) in
       [line_feed; line_feed] ++ js "Available shortcuts:" ++ [line_feed] ++ shortcutList
     else []) in
  [ {| tool_name := ToolName.LIST_SHORTCUTS;
       tool_description := js "List all available Siri shortcuts" |};
    {| tool_name := ToolName.OPEN_SHORTCUT;
       tool_description := js "Open a shortcut in the Shortcuts app" |};
    {| tool_name := ToolName.RUN_SHORTCUT;
       tool_description := runShortcutDescription |} ].

(** The [ListToolsRequestSchema] handler. *)
Definition listTools (GENERATE_SHORTCUT_TOOLS INJECT_SHORTCUT_LIST : bool)
    (shortcutMap : ShortcutMap) : list Tool :=
  getBaseTools INJECT_SHORTCUT_LIST shortcutMap
  ++ (if GENERATE_SHORTCUT_TOOLS then getDynamicShortcutTools shortcutMap else []).

(** ** The execution bridge: [runShortcut]

    The handler passes the [arguments] of a [run_shortcut] request on as
    they came ([args as RunShortcutInput] checks nothing at run time), so
    [params.name] and [params.input] are JSON values of any kind, or
    missing.  A number is an IEEE 754 double. *)

#[warnings="-register-all"] Inductive Json :=
  | JsonNull
  | JsonBoolean (b : bool)
  | JsonNumber (x : spec_float)
  | JsonString (s : list N)
  | JsonArray (elements : list Json)
  | JsonObject (members : list (list N * Json)).

(** [ToBoolean]: [null], [false], zeros, [NaN] and the empty string are
    falsy. *)
Definition ToBoolean (v : Json) : bool :=
  match v with
  | JsonNull => false
  | JsonBoolean b => b
  | JsonNumber (S754_zero _) | JsonNumber S754_nan => false
  | JsonNumber _ => true
  | JsonString s => bool_decide (s ≠ [])
  | JsonArray _ | JsonObject _ => true
  end.

(** [input.includes("/")] for strings. *)
Definition includes_slash (s : jsstring) : bool := existsb (λ c, (c =? 47)%N) s.

(** [input.includes("/")] for any value: [String.prototype.includes] on a
    string, [Array.prototype.includes] on an array (an element that is the
    string ["/"]); on anything else [input.includes] is not a function, a
    [TypeError] ([None]): the property is missing, or, on an object read
    from JSON, it holds a JSON value. *)
Definition includes (input : Json) : option bool :=
  match input with
  | JsonString s => Some (includes_slash s)
  | JsonArray elements =>
      Some (existsb (λ e, match e with
                          | JsonString s => bool_decide (s = js "/")
                          | _ => false
                          end) elements)
  | _ => None
  end.

Section ToString.

(** [Number::toString] on doubles. *)
Variable Number_toString_double : spec_float → jsstring.

(** [ToString], as a template literal applies it; [None] for a
    [TypeError].  An array is joined with commas, [null] elements giving
    empty strings; an object is ["[object Object]"] unless it has a
    property [toString] of its own, which, read from JSON, cannot be
    called, and [Object.prototype.valueOf] gives no primitive either. *)
Fixpoint ToString (v : Json) : option jsstring :=
  match v with
  | JsonNull => Some (js "null")
  | JsonBoolean b => Some (if b then js "true" else js "false")
  | JsonNumber x => Some (Number_toString_double x)
  | JsonString s => Some s
  | JsonArray elements =>
      Array_join (js ",")
        <$> mapM (λ e, match e with JsonNull => Some [] | _ => ToString e end) elements
  | JsonObject members =>
      if bool_decide (js "toString" ∈ members.*1) then None
      else Some (js "[object Object]")
  end.

(** [`${v}`] for a property that may be missing ([undefined]). *)
Definition template (v : option Json) : option jsstring :=
  match v with
  | Some v => ToString v
  | None => Some (js "undefined")
  end.

End ToString.

(** The two properties [runShortcut] reads from [params]; [None] for a
    missing property. *)
Record RunShortcutInput := {
  run_name : option Json;
  run_input : option Json
}.

(** What [runShortcut] does up to its call of [exec]: it throws (the
    promise is rejected), or it calls [exec] with one command, after
    writing a temporary file when the input holds no slash ([written]: the
    path and the data). *)
Inductive RunPlan :=
  | RunThrows (error : Thrown)
  | RunExecs (written : option (list N * Json)) (command : list N).

Definition single_quote : code_unit := 39%N.

(** [`'${s}'`] *)
Definition quoted (s : jsstring) : jsstring := [single_quote] ++ s ++ [single_quote].

(** [params.input || " "] *)
Definition input_or_space (input : option Json) : Json :=
  match input with
  | Some v => if ToBoolean v then v else JsonString (js " ")
  | None => JsonString (js " ")
  end.

(** [fs.existsSync(input)]: [exists_file] is the state of the file system;
    for a value that is not a path [fs.existsSync] does not throw, it
    returns [false]. *)
Definition fs_existsSync (exists_file : list N → bool) (input : Json) : bool :=
  match input with
  | JsonString path => exists_file path
  | _ => false
  end.

(** [path.join("/tmp", `shortcut-input-${Date.now()}`)]: [now] is an
    integer number of milliseconds, at most [8.64e15], so the template
    literal prints it in decimal, and the file name holds no slash or dot
    for [path.join] to normalize. *)
Definition tmpPath (now : N) : jsstring :=
  js "/tmp" ++ js "/" ++ js "shortcut-input-" ++ Number_toString now.

(** [`shortcuts ${args.join(" ")}`] once [args] is complete. *)
Definition exec_command (name path : jsstring) : jsstring :=
  let args := [js "run"; quoted name] in
  let args := args ++ [js "--input-path"; quoted path] in
  let args := args ++ [js "|"; js "cat"] in
  js "shortcuts " ++ Array_join (js " ") args.

(** [runShortcut], up to its call of [exec].  [writeFileSync path data] is
    [false] when [fs.writeFileSync] throws.  The message of the [McpError]
    is built from [input] before the error is thrown. *)
Definition runShortcut (Number_toString_double : spec_float → jsstring)
    (exists_file : list N → bool) (writeFileSync : list N → Json → bool) (now : N)
    (params : RunShortcutInput) : RunPlan :=
  match template Number_toString_double (run_name params) with
  | None => RunThrows OtherError
  | Some name =>
      let input := input_or_space (run_input params) in
      match includes input with
      | None => RunThrows OtherError
      | Some true =>
          if negb (fs_existsSync exists_file input) then
            match ToString Number_toString_double input with
            | Some _ => RunThrows (McpError InvalidParams)
            | None => RunThrows OtherError
            end
          else
            match ToString Number_toString_double input with
            | Some path => RunExecs None (exec_command name path)
            | None => RunThrows OtherError
            end
      | Some false =>
          if writeFileSync (tmpPath now) input
          then RunExecs (Some (tmpPath now, input)) (exec_command name (tmpPath now))
          else RunThrows OtherError
      end
  end.

(** The parameters of the dynamic branch of the handler:
    [runShortcut({ name: shortcutName, input })], where [input] is
    [String(args.input)] or [undefined]. *)
Definition named_params (shortcutName : jsstring) (input : option (list N))
    : RunShortcutInput :=
  {| run_name := Some (JsonString shortcutName); run_input := JsonString <$> input |}.

(** * Properties *)

(** ** Code units and library strings *)

Lemma is_token_unit_underscore : is_token_unit underscore = true.
Proof. reflexivity. Qed.

Lemma is_token_unit_ascii c : is_token_unit c = true → (c < 128)%N.
Proof.
  unfold is_token_unit, is_underscore, underscore.
  rewrite !orb_true_iff, !andb_true_iff, !N.leb_le, N.eqb_eq. lia.
Qed.

Lemma ascii_lower_token c : is_token_unit c = true → ascii_lower c = c.
Proof.
  unfold is_token_unit, is_underscore, underscore, ascii_lower.
  rewrite !orb_true_iff, !andb_true_iff, !N.leb_le, N.eqb_eq. intros Hc.
  destruct (_ && _) eqn:E; [|done].
  apply andb_true_iff in E as [?%N.leb_le ?%N.leb_le]. lia.
Qed.

Lemma token_units_Forall s :
  token_units s = true ↔ Forall (λ c, is_token_unit c = true) s.
Proof.
  unfold token_units. induction s as [|c s IH]; simpl.
  - split; [constructor|done].
  - rewrite andb_true_iff, Forall_cons, IH. done.
Qed.

Lemma token_units_app s t :
  token_units (s ++ t) = token_units s && token_units t.
Proof. apply forallb_app. Qed.

Lemma token_units_take n s : token_units s = true → token_units (take n s) = true.
Proof.
  rewrite !token_units_Forall. apply Forall_take.
Qed.

Lemma leading_underscore_take n s :
  leading_underscore (take n s) = true → leading_underscore s = true.
Proof. destruct n, s; done. Qed.

Lemma double_underscore_take n s :
  double_underscore s = false → double_underscore (take n s) = false.
Proof.
  revert n. induction s as [|c s IH]; intros [|n]; simpl; try done.
  rewrite !orb_false_iff, !andb_false_iff. intros [Hc Hs]. split; [|by apply IH].
  destruct Hc as [Hc|Hc]; [by left|right].
  destruct (leading_underscore (take n s)) eqn:E; [|done].
  apply leading_underscore_take in E. congruence.
Qed.

Lemma trailing_underscore_snoc s c : trailing_underscore (s ++ [c]) = is_underscore c.
Proof. unfold trailing_underscore. by rewrite last_snoc. Qed.

Lemma double_underscore_snoc s c :
  double_underscore (s ++ [c])
  = double_underscore s || (trailing_underscore s && is_underscore c).
Proof.
  induction s as [|d [|e s] IH].
  - simpl. by rewrite andb_false_r.
  - unfold trailing_underscore. simpl.
    by destruct (is_underscore d), (is_underscore c).
  - change (double_underscore ((d :: e :: s) ++ [c]))
      with ((is_underscore d && is_underscore e) || double_underscore ((e :: s) ++ [c])).
    rewrite IH. unfold trailing_underscore. rewrite last_cons_cons. simpl.
    by rewrite orb_assoc.
Qed.


(** ** The replacements keep, or establish, the token constraints *)

Lemma token_units_replace_non_token s : token_units (replace_non_token s) = true.
Proof.
  apply token_units_Forall, Forall_fmap, Forall_forall. intros c _. simpl.
  destruct (is_token_unit c) eqn:E; [done|apply is_token_unit_underscore].
Qed.

Lemma replace_non_token_id s : token_units s = true → replace_non_token s = s.
Proof.
  rewrite token_units_Forall. induction 1 as [|c s Hc _ IH]; [done|].
  unfold replace_non_token in *. rewrite fmap_cons, Hc. by f_equal.
Qed.

Lemma leading_underscore_runs s :
  leading_underscore (replace_underscore_runs s) = leading_underscore s.
Proof.
  induction s as [|c s IH]; [done|]. simpl.
  destruct (is_underscore c && leading_underscore s) eqn:E; [|done].
  apply andb_true_iff in E as [-> E]. by rewrite IH.
Qed.

Lemma double_underscore_runs s :
  double_underscore (replace_underscore_runs s) = false.
Proof.
  induction s as [|c s IH]; [done|]. simpl.
  destruct (is_underscore c && leading_underscore s) eqn:E; [done|]. simpl.
  by rewrite leading_underscore_runs, E, IH.
Qed.

Lemma token_units_runs s :
  token_units s = true → token_units (replace_underscore_runs s) = true.
Proof.
  unfold token_units. induction s as [|c s IH]; [done|]. simpl.
  intros [Hc Hs]%andb_true_iff.
  destruct (is_underscore c && leading_underscore s); simpl; [by apply IH|].
  by rewrite Hc, IH.
Qed.

Lemma replace_underscore_runs_id s :
  double_underscore s = false → replace_underscore_runs s = s.
Proof.
  induction s as [|c s IH]; [done|]. simpl.
  intros [-> Hs]%orb_false_iff. by rewrite IH.
Qed.

Lemma replace_trailing_underscore_take s :
  ∃ n, replace_trailing_underscore s = take n s.
Proof.
  unfold replace_trailing_underscore.
  destruct (last s) as [c|]; [destruct (is_underscore c)|]; eauto using take_ge.
  all: exists (length s); by rewrite take_ge.
Qed.

Lemma replace_trailing_underscore_id s :
  trailing_underscore s = false → replace_trailing_underscore s = s.
Proof.
  unfold trailing_underscore, replace_trailing_underscore.
  destruct (last s); [by intros ->|done].
Qed.

Lemma trailing_underscore_replace s :
  double_underscore s = false →
  trailing_underscore (replace_trailing_underscore s) = false.
Proof.
  destruct (last s) as [c|] eqn:E.
  - apply last_Some in E as [t ->]. unfold replace_trailing_underscore.
    rewrite last_snoc, double_underscore_snoc.
    destruct (is_underscore c) eqn:Hc.
    + rewrite andb_true_r. intros [_ Ht]%orb_false_iff.
      rewrite length_app. simpl.
      replace (length t + 1 - 1) with (length t) by lia.
      by rewrite take_app_length.
    + intros _. by rewrite trailing_underscore_snoc.
  - intros _. unfold replace_trailing_underscore, trailing_underscore.
    rewrite E. by rewrite E.
Qed.

Lemma length_replace_trailing_underscore s :
  length (replace_trailing_underscore s) ≤ length s.
Proof.
  destruct (replace_trailing_underscore_take s) as [n ->].
  rewrite length_take. lia.
Qed.

Lemma well_formed_token_spec s :
  well_formed_token s = true ↔
  token_units s = true ∧ leading_underscore s = false
  ∧ trailing_underscore s = false ∧ double_underscore s = false.
Proof.
  unfold well_formed_token.
  rewrite !andb_true_iff, !negb_true_iff. tauto.
Qed.

Lemma well_formed_replace_trailing s :
  token_units s = true → leading_underscore s = false →
  double_underscore s = false →
  well_formed_token (replace_trailing_underscore s) = true.
Proof.
  intros Ht Hl Hd. apply well_formed_token_spec.
  split_and!; [| | by apply trailing_underscore_replace|];
    destruct (replace_trailing_underscore_take s) as [n ->].
  - by apply token_units_take.
  - destruct (leading_underscore (take n s)) eqn:E; [|done].
    apply leading_underscore_take in E. congruence.
  - by apply double_underscore_take.
Qed.

Lemma well_formed_replace_edge s :
  token_units s = true → double_underscore s = false →
  well_formed_token (replace_edge_underscores s) = true.
Proof.
  destruct s as [|c s]; [done|]. simpl.
  intros [Hc Hs]%andb_true_iff [Hcs Hd]%orb_false_iff.
  destruct (is_underscore c) eqn:E.
  - apply well_formed_replace_trailing; done.
  - apply well_formed_replace_trailing; simpl; [|done|].
    + unfold token_units in *. simpl. by rewrite Hc.
    + by rewrite E, Hd.
Qed.

Lemma replace_edge_underscores_id s :
  leading_underscore s = false → trailing_underscore s = false →
  replace_edge_underscores s = s.
Proof.
  destruct s as [|c s]; [done|]. simpl. intros -> Ht.
  by apply replace_trailing_underscore_id.
Qed.

Lemma substring_0 s n : substring s 0 n = take (Z.to_nat n) s.
Proof.
  unfold substring. rewrite Z.max_id, (Z.min_l 0) by lia.
  rewrite (Z.min_l 0), Z.max_r by lia. rewrite Z.sub_0_r. simpl.
  destruct (decide (Z.of_nat (length s) ≤ n)%Z).
  - rewrite Z.min_r, Nat2Z.id by lia. rewrite !take_ge; [done|lia|done].
  - f_equal. lia.
Qed.

(** ** The sanitizer *)

Lemma maxSanitizedLength_51 : maxSanitizedLength = 51%Z.
Proof. reflexivity. Qed.

Section Sanitizer.
Context `{LowerCase}.

Lemma sanitizeShortcutName_well_formed name :
  well_formed_token (sanitizeShortcutName name) = true.
Proof.
  unfold sanitizeShortcutName.
  set (runs := replace_underscore_runs (replace_non_token (toLowerCase name))).
  assert (well_formed_token (replace_edge_underscores runs) = true) as Hwf.
  { apply well_formed_replace_edge; [|apply double_underscore_runs].
    apply token_units_runs, token_units_replace_non_token. }
  destruct (_ >? _)%Z; [|done].
  apply well_formed_token_spec in Hwf as (Ht & Hl & _ & Hd).
  rewrite substring_0. apply well_formed_replace_trailing.
  - by apply token_units_take.
  - destruct (leading_underscore (take _ _)) eqn:E; [|done].
    apply leading_underscore_take in E. congruence.
  - by apply double_underscore_take.
Qed.

Lemma sanitizeShortcutName_length name :
  length (sanitizeShortcutName name) ≤ 51.
Proof.
  unfold sanitizeShortcutName. rewrite maxSanitizedLength_51.
  destruct (_ >? _)%Z eqn:E.
  - etrans; [apply length_replace_trailing_underscore|].
    rewrite substring_0, length_take. lia.
  - rewrite Z.gtb_ltb in E. apply Z.ltb_ge in E. lia.
Qed.

(** Lower-casing leaves a string over [[a-z0-9_]] alone. *)
Lemma toLowerCase_token_units (t : list N) : token_units t = true → toLowerCase t = t.
Proof.
  intros Ht%token_units_Forall. rewrite toLowerCase_ascii.
  - induction Ht as [|c t Hc _ IH]; [done|].
    rewrite fmap_cons, IH. f_equal. by apply ascii_lower_token.
  - eapply Forall_impl; [done|]. apply is_token_unit_ascii.
Qed.

(** A string that already is a token within the budget is left unchanged. *)
Lemma sanitizeShortcutName_id t :
  well_formed_token t = true → length t ≤ 51 → sanitizeShortcutName t = t.
Proof.
  intros (Ht & Hl & Hr & Hd)%well_formed_token_spec Hlen.
  unfold sanitizeShortcutName.
  rewrite toLowerCase_token_units by done.
  rewrite replace_non_token_id, replace_underscore_runs_id,
    replace_edge_underscores_id by done.
  rewrite maxSanitizedLength_51.
  destruct (_ >? _)%Z eqn:E; [|done].
  apply Z.gtb_lt in E. lia.
Qed.

(** C5. For every text input, the sanitized name contains only code units
    of [[a-z0-9_]], has neither a leading nor a trailing underscore, has no
    two consecutive underscores, and is at most 51 code units long, so that
    ["run_shortcut_"] followed by it is at most 64 code units long. *)
Theorem sanitizeShortcutName_token_within_budget (s : jsstring) :
  token_units (sanitizeShortcutName s) = true
  ∧ leading_underscore (sanitizeShortcutName s) = false
  ∧ trailing_underscore (sanitizeShortcutName s) = false
  ∧ double_underscore (sanitizeShortcutName s) = false
  ∧ length (sanitizeShortcutName s) ≤ 51
  ∧ length (js "run_shortcut_" ++ sanitizeShortcutName s) ≤ 64.
Proof.
  pose proof (sanitizeShortcutName_well_formed s) as Hwf.
  apply well_formed_token_spec in Hwf as (? & ? & ? & ?).
  pose proof (sanitizeShortcutName_length s).
  split_and!; try done.
  rewrite length_app. change (length (js "run_shortcut_")) with 13. lia.
Qed.

(** C10. The sanitizer is idempotent. *)
Theorem sanitizeShortcutName_idempotent (s : jsstring) :
  sanitizeShortcutName (sanitizeShortcutName s) = sanitizeShortcutName s.
Proof.
  apply sanitizeShortcutName_id.
  - apply sanitizeShortcutName_well_formed.
  - apply sanitizeShortcutName_length.
Qed.

End Sanitizer.

(** ** Decimal numerals *)

Lemma is_digit_unit_token c : is_digit_unit c = true → is_token_unit c = true.
Proof. unfold is_token_unit, is_digit_unit. intros ->. by rewrite orb_true_r. Qed.

Lemma is_digit_unit_not_underscore c : is_digit_unit c = true → is_underscore c = false.
Proof.
  unfold is_digit_unit, is_underscore, underscore.
  rewrite andb_true_iff, !N.leb_le, N.eqb_neq. lia.
Qed.

Lemma js_inj s t : js s = js t → s = t.
Proof.
  unfold js. intros Heq.
  rewrite <-(string_of_list_ascii_of_string s), <-(string_of_list_ascii_of_string t).
  f_equal. revert Heq.
  generalize (list_ascii_of_string s) (list_ascii_of_string t).
  induction l as [|a l IH]; intros [|b l']; rewrite ?fmap_cons, ?fmap_nil; try done.
  intros [= Hab Hl]. f_equal; [|by apply IH].
  by rewrite <-(ascii_N_embedding a), <-(ascii_N_embedding b), Hab.
Qed.

Lemma length_js s : length (js s) = String.length s.
Proof.
  unfold js. rewrite length_fmap. induction s; simpl; by f_equal.
Qed.

Lemma js_String a s : js (String a s) = N_of_ascii a :: js s.
Proof. done. Qed.

Lemma pretty_N_char_digit d : is_digit_unit (N_of_ascii (pretty_N_char d)) = true.
Proof. unfold pretty_N_char. by repeat case_match. Qed.

Lemma pretty_N_go_digits x s :
  forallb is_digit_unit (js s) = true →
  forallb is_digit_unit (js (pretty_N_go x s)) = true.
Proof.
  revert s. induction (N.lt_wf_0 x) as [x _ IH]. intros s Hs.
  destruct (decide (x = 0%N)) as [->|]; [by rewrite pretty_N_go_0|].
  rewrite pretty_N_go_step by lia. apply IH.
  - apply N.div_lt; lia.
  - rewrite js_String. simpl. by rewrite pretty_N_char_digit.
Qed.

Lemma pretty_N_go_length d x s :
  (x < 10 ^ N.of_nat d)%N → String.length (pretty_N_go x s) ≤ d + String.length s.
Proof.
  revert x s. induction d as [|d IH]; intros x s Hx.
  - assert (x = 0%N) as -> by (simpl in Hx; lia). by rewrite pretty_N_go_0.
  - destruct (decide (x = 0%N)) as [->|]; [rewrite pretty_N_go_0; lia|].
    rewrite pretty_N_go_step by lia.
    etrans; [apply IH|simpl; lia].
    apply N.Div0.div_lt_upper_bound.
    rewrite Nat2N.inj_succ, N.pow_succ_r' in Hx. lia.
Qed.


Lemma Number_toString_digits n : forallb is_digit_unit (Number_toString n) = true.
Proof.
  unfold Number_toString, pretty, pretty_N.
  case_decide; [done|]. by apply pretty_N_go_digits.
Qed.


Lemma Number_toString_inj n m : Number_toString n = Number_toString m → n = m.
Proof. intros Heq%js_inj. by apply (inj pretty). Qed.

Lemma Number_toString_length n :
  (n ≤ counter_limit)%N → length (Number_toString n) ≤ 16.
Proof.
  intros Hn. unfold Number_toString, pretty, pretty_N. rewrite length_js.
  case_decide; [simpl; lia|].
  etrans; [apply (pretty_N_go_length 16)|simpl; lia].
  unfold counter_limit in Hn. simpl. lia.
Qed.

Lemma Number_toString_no_underscore n : underscore ∉ Number_toString n.
Proof.
  pose proof (Number_toString_digits n) as Hd.
  rewrite forallb_forall in Hd. intros Hin%list_elem_of_In.
  apply Hd, is_digit_unit_not_underscore in Hin. done.
Qed.

(** ** Candidates of the resolver *)

Lemma suffixed_shape base k :
  ∃ n, suffixed base k = take n base ++ underscore :: Number_toString k.
Proof.
  unfold suffixed. destruct (_ >? _)%Z.
  - rewrite substring_0. eauto.
  - exists (length base). by rewrite take_ge.
Qed.

Lemma app_underscore_inj (p1 p2 d1 d2 : jsstring) :
  underscore ∉ d1 → underscore ∉ d2 →
  p1 ++ underscore :: d1 = p2 ++ underscore :: d2 → d1 = d2.
Proof.
  intros H1 H2. revert p2.
  induction p1 as [|c p1 IH]; intros [|c' p2]; simpl; intros [= ]; subst.
  - done.
  - destruct H1. apply elem_of_app. right. left.
  - destruct H2. apply elem_of_app. right. left.
  - by eapply IH.
Qed.

(** Distinct counters give distinct candidates: the counter can be read back
    from what follows the last underscore. *)
Lemma suffixed_inj base k1 k2 : suffixed base k1 = suffixed base k2 → k1 = k2.
Proof.
  destruct (suffixed_shape base k1) as [n1 ->].
  destruct (suffixed_shape base k2) as [n2 ->].
  intros Heq. apply Number_toString_inj.
  eapply app_underscore_inj; [apply Number_toString_no_underscore..|done].
Qed.

Lemma suffixed_token_units base k :
  token_units base = true → token_units (suffixed base k) = true.
Proof.
  intros Hb. destruct (suffixed_shape base k) as [n ->].
  rewrite token_units_app, token_units_take by done. simpl.
  pose proof (Number_toString_digits k) as Hd.
  unfold token_units. apply forallb_forall. intros c Hc.
  rewrite forallb_forall in Hd. by apply is_digit_unit_token, Hd.
Qed.


Lemma suffixed_length base k :
  length base ≤ 51 → (k ≤ counter_limit)%N → length (suffixed base k) ≤ 51.
Proof.
  intros Hb Hk. pose proof (Number_toString_length k Hk) as Hlen.
  unfold suffixed. change (64 - Z.of_nat (length toolPrefix))%Z with 51%Z.
  change (js "_") with [underscore].
  destruct (_ >? _)%Z eqn:E.
  - apply Z.gtb_lt in E. rewrite substring_0, length_app, length_take.
    simpl in *. lia.
  - rewrite Z.gtb_ltb in E. apply Z.ltb_ge in E.
    rewrite length_app. simpl in *. lia.
Qed.






(** ** The loop of the resolver *)

Section Loop.
Variable existing : gset (list N).
Variable base : list N.

Lemma increment_below c : (c < counter_limit)%N → increment c = (c + 1)%N.
Proof. unfold increment. intros Hc. apply N.ltb_lt in Hc. by rewrite Hc. Qed.

Lemma increment_limit : increment counter_limit = counter_limit.
Proof. reflexivity. Qed.

Lemma increment_le c : (c ≤ counter_limit)%N → (increment c ≤ counter_limit)%N.
Proof. unfold increment. destruct (c <? _)%N eqn:E; [apply N.ltb_lt in E|]; lia. Qed.

Lemma unique_loop_mono f f' u c t :
  unique_loop f existing base u c = Some t → f ≤ f' →
  unique_loop f' existing base u c = Some t.
Proof.
  revert f' u c. induction f as [|f IH]; intros [|f'] u c; simpl; try done; [lia|].
  case_decide; [|done]. intros Hf ?. apply IH; [done|lia].
Qed.

(** What the loop returns is not claimed, and it is the string the loop was
    entered with or the candidate of a counter it reached. *)
Lemma unique_loop_result f u c t :
  (c ≤ counter_limit)%N →
  unique_loop f existing base u c = Some t →
  (t ∉ existing) ∧
  (t = u ∨ ∃ k, (c ≤ k ≤ counter_limit)%N ∧ t = suffixed base k).
Proof.
  revert u c. induction f as [|f IH]; intros u c Hc; simpl; [done|].
  case_decide as Hu.
  - intros Hloop. apply IH in Hloop as (? & [->|(k & Hk & ->)]);
      [| |by apply increment_le].
    + split; [done|]. right. exists c. split; [lia|done].
    + split; [done|]. right. exists k. split; [|done].
      unfold increment in Hk. destruct (c <? _)%N; lia.
  - intros [= <-]. auto.
Qed.

(** The loop never exits when every string it can test is claimed; this
    takes at least [2^53] claimed tokens. *)
Lemma unique_loop_diverges f (u : list N) (c : N) :
  u ∈ existing → (c ≤ counter_limit)%N →
  (∀ k, (c ≤ k ≤ counter_limit)%N → suffixed base k ∈ existing) →
  unique_loop f existing base u c = None.
Proof.
  revert u c. induction f as [|f IH]; intros u c Hu Hc Hall; simpl; [done|].
  rewrite decide_True by done. apply IH.
  - apply Hall. lia.
  - by apply increment_le.
  - intros k Hk. apply Hall. unfold increment in Hk.
    destruct (c <? counter_limit)%N eqn:E; [|lia].
    apply N.ltb_lt in E. lia.
Qed.

(** Once the counter sits at its limit with a claimed candidate, the loop
    tests the same candidate again and again. *)
Lemma unique_loop_stuck f :
  suffixed base counter_limit ∈ existing →
  unique_loop f existing base (suffixed base counter_limit) counter_limit = None.
Proof.
  intros Hin. induction f as [|f IH]; simpl; [done|].
  rewrite decide_True by done. by rewrite increment_limit.
Qed.

Lemma unique_loop_exit n u c :
  (c + N.of_nat n ≤ counter_limit)%N →
  suffixed base (c + N.of_nat n) ∉ existing →
  is_Some (unique_loop (n + 2) existing base u c).
Proof.
  revert u c. induction n as [|n IH]; intros u c Hc Hfree; simpl.
  - rewrite N.add_0_r in Hfree. case_decide; [|done]. by rewrite decide_False.
  - case_decide; [|done]. rewrite increment_below by lia.
    apply IH; [lia|]. by replace (c + 1 + N.of_nat n)%N with (c + N.of_nat (S n))%N by lia.
Qed.

(** Among the first [size existing + 1] candidates one is not claimed. *)
Lemma free_candidate :
  ∃ n, n ≤ size existing ∧ suffixed base (1 + N.of_nat n) ∉ existing.
Proof.
  set (cand := λ n : nat, suffixed base (1 + N.of_nat n)).
  set (l := cand <$> seq 0 (S (size existing))).
  assert (NoDup l) as Hnd.
  { apply NoDup_fmap_2_strong; [|apply NoDup_seq].
    intros n m _ _ Heq%suffixed_inj. lia. }
  destruct (decide (Forall (λ x, x ∈ existing) l)) as [Hall|Hex].
  - assert (list_to_set l ⊆ existing) as Hsub.
    { intros x Hx%elem_of_list_to_set. by eapply Forall_forall in Hall. }
    apply subseteq_size in Hsub. rewrite size_list_to_set in Hsub by done.
    unfold l in Hsub. rewrite length_fmap, length_seq in Hsub. lia.
  - apply not_Forall_Exists in Hex; [|apply _].
    apply Exists_exists in Hex as (x & Hx & Hfree).
    apply list_elem_of_fmap in Hx as (n & -> & Hn%elem_of_seq).
    exists n. split; [lia|done].
Qed.

(** The loop needs at most [size existing + 2] tests of its condition:
    [V] collects the claimed candidates already met. *)
Lemma unique_loop_bounded (f : nat) (u : list N) (c : N) (V : gset (list N))
    (t : list N) :
  V ⊆ existing → (∀ k, (c ≤ k)%N → suffixed base k ∉ V) →
  (c ≤ counter_limit)%N →
  unique_loop f existing base u c = Some t →
  unique_loop (size existing - size V + 2) existing base u c = Some t.
Proof.
  revert u c V. induction f as [|f IH]; intros u c V HV Hfresh Hc; simpl; [done|].
  replace (size existing - size V + 2) with (S (size existing - size V + 1)) by lia.
  simpl. case_decide as Hu; [|done].
  destruct (decide (suffixed base c ∈ existing)) as [Hin|Hout].
  - destruct (decide (c = counter_limit)) as [->|Hne].
    { rewrite increment_limit. by rewrite unique_loop_stuck. }
    rewrite increment_below by lia. intros Hloop.
    assert (suffixed base c ∉ V) as HcV by (apply Hfresh; lia).
    assert (size ({[suffixed base c]} ∪ V) = S (size V)) as Hsize.
    { rewrite size_union by by apply disjoint_singleton_l.
      by rewrite size_singleton. }
    assert ({[suffixed base c]} ∪ V ⊆ existing) as Hsub.
    { apply union_subseteq. split; [by apply singleton_subseteq_l|done]. }
    pose proof (subseteq_size _ _ Hsub) as Hle. rewrite Hsize in Hle.
    replace (size existing - size V + 1)
      with (size existing - size ({[suffixed base c]} ∪ V) + 2) by lia.
    apply IH; [done| |lia|done].
    intros k Hk [Heq%elem_of_singleton|HkV]%elem_of_union.
    + apply suffixed_inj in Heq. lia.
    + revert HkV. apply Hfresh. lia.
  - destruct f as [|f]; simpl; [done|]. rewrite decide_False by done.
    replace (size existing - size V + 1) with (S (size existing - size V)) by lia.
    simpl. by rewrite decide_False.
Qed.

(** The fuel of [generateUniqueSanitizedName] loses nothing: whenever the
    loop exits at all, it exits within that fuel. *)
Lemma unique_loop_fuel_irrelevant f u t :
  unique_loop f existing base u 1%N = Some t →
  unique_loop (size existing + 2) existing base u 1%N = Some t.
Proof.
  intros Hloop.
  replace (size existing + 2) with (size existing - size (∅ : gset (list N)) + 2)
    by (rewrite size_empty; lia).
  eapply unique_loop_bounded; [set_solver|set_solver|done|done].
Qed.

(** With fewer than [2^53] claimed tokens the loop exits. *)
Lemma unique_loop_terminates u :
  (N.of_nat (size existing) < counter_limit)%N →
  is_Some (unique_loop (size existing + 2) existing base u 1%N).
Proof.
  intros Hsize. destruct free_candidate as (n & Hn & Hfree).
  destruct (unique_loop_exit n u 1%N) as [t Ht]; [lia|done|].
  exists t. eapply unique_loop_mono; [done|lia].
Qed.

End Loop.

(** ** The resolver *)

Section Resolver.
Context `{LowerCase}.

Lemma generateUniqueSanitizedName_is_Some (name : list N) (existing : gset (list N)) :
  (N.of_nat (size existing) < counter_limit)%N →
  is_Some (generateUniqueSanitizedName name existing).
Proof. apply unique_loop_terminates. Qed.

Lemma generateUniqueSanitizedName_result (name : list N) (existing : gset (list N))
    (t : list N) :
  generateUniqueSanitizedName name existing = Some t →
  (t ∉ existing) ∧
  (t = sanitizeShortcutName name
   ∨ ∃ k, (1 ≤ k ≤ counter_limit)%N ∧ t = suffixed (sanitizeShortcutName name) k).
Proof. by apply unique_loop_result. Qed.


Lemma generateUniqueSanitizedName_length (name : list N) (existing : gset (list N))
    (t : list N) :
  generateUniqueSanitizedName name existing = Some t → length t ≤ 51.
Proof.
  intros [_ [->|(k & Hk & ->)]]%generateUniqueSanitizedName_result.
  - apply sanitizeShortcutName_length.
  - apply suffixed_length; [apply sanitizeShortcutName_length|lia].
Qed.

Lemma generateUniqueSanitizedName_charset (name : list N) (existing : gset (list N))
    (t : list N) :
  generateUniqueSanitizedName name existing = Some t → token_units t = true.
Proof.
  pose proof (sanitizeShortcutName_well_formed name) as Hwf.
  apply well_formed_token_spec in Hwf as (Ht & _).
  intros [_ [->|(k & Hk & ->)]]%generateUniqueSanitizedName_result; [done|].
  by apply suffixed_token_units.
Qed.

(** C6. For every name and every claimed set, the token the resolver
    returns is not in the claimed set and is at most 51 code units long; and
    the resolver does return a token when fewer than [2^53] tokens are
    claimed, the range in which the counter of its loop counts. *)
Theorem generateUniqueSanitizedName_unclaimed_within_budget
    (name : jsstring) (claimed : gset (list N)) :
  ((N.of_nat (size claimed) < counter_limit)%N →
   is_Some (generateUniqueSanitizedName name claimed))
  ∧ ∀ t, generateUniqueSanitizedName name claimed = Some t →
         (t ∉ claimed) ∧ length t ≤ 51.
Proof.
  split; [apply generateUniqueSanitizedName_is_Some|].
  intros t Ht. split.
  - by apply generateUniqueSanitizedName_result in Ht as [? _].
  - by eapply generateUniqueSanitizedName_length.
Qed.

(** C7. The collision-counter loop terminates: distinct counter values
    give distinct candidates, so among the counters [1 .. size claimed + 1]
    one has a candidate that is not claimed; the loop tries the counters in
    order, up to [2^53] where the counter stops counting, so with fewer
    than [2^53] claimed tokens it exits: every fuel of at least
    [size claimed + 2] tests of the loop condition gives the token that the
    resolver returns. *)
Theorem generateUniqueSanitizedName_terminates
    (name : jsstring) (claimed : gset (list N)) :
  (∀ k1 k2, suffixed (sanitizeShortcutName name) k1
            = suffixed (sanitizeShortcutName name) k2 → k1 = k2)
  ∧ (∃ k, (1 ≤ k ≤ N.of_nat (size claimed) + 1)%N
          ∧ suffixed (sanitizeShortcutName name) k ∉ claimed)
  ∧ ((N.of_nat (size claimed) < counter_limit)%N →
     ∃ t, generateUniqueSanitizedName name claimed = Some t
          ∧ ∀ fuel, size claimed + 2 ≤ fuel →
              unique_loop fuel claimed (sanitizeShortcutName name)
                (sanitizeShortcutName name) 1%N = Some t).
Proof.
  split; [apply suffixed_inj|]. split.
  - destruct (free_candidate claimed (sanitizeShortcutName name)) as (n & Hn & Hfree).
    exists (1 + N.of_nat n)%N. split; [lia|done].
  - intros Hsize.
    destruct (generateUniqueSanitizedName_is_Some name claimed Hsize) as [t Ht].
    exists t. split; [done|]. intros fuel Hfuel.
    by eapply unique_loop_mono.
Qed.


End Resolver.

(** ** The registry as a map *)

Lemma Map_get_set (k v : list N) (m : list (list N * list N)) (k' : list N) :
  Map_get k' (Map_set k v m) = if decide (k = k') then Some v else Map_get k' m.
Proof.
  induction m as [|[k0 v0] m IH]; simpl.
  - done.
  - destruct (decide (k0 = k)) as [->|Hne]; simpl.
    + by destruct (decide (k = k')).
    + rewrite IH. destruct (decide (k0 = k')) as [->|]; [|done].
      by rewrite decide_False.
Qed.

Lemma Map_set_keys (k v : list N) (m : list (list N * list N)) :
  (Map_set k v m).*1 = if decide (k ∈ m.*1) then m.*1 else m.*1 ++ [k].
Proof.
  induction m as [|[k0 v0] m IH]; [done|].
  change (Map_set k v ((k0, v0) :: m))
    with (if decide (k0 = k) then (k0, v) :: m else (k0, v0) :: Map_set k v m).
  destruct (decide (k0 = k)) as [->|Hne]; rewrite !fmap_cons; cbn [fst].
  - rewrite decide_True; [done|]. left.
  - rewrite IH. destruct (decide (k ∈ m.*1)) as [Hin|Hout].
    + rewrite decide_True; [done|]. by right.
    + rewrite decide_False; [done|]. by intros [->|?]%elem_of_cons.
Qed.

Lemma Map_set_NoDup (k v : list N) (m : list (list N * list N)) :
  NoDup m.*1 → NoDup (Map_set k v m).*1.
Proof.
  intros Hnd. rewrite Map_set_keys. case_decide; [done|].
  apply NoDup_app. split; [done|]. split; [|apply NoDup_singleton].
  by intros x Hx ->%list_elem_of_singleton.
Qed.

Lemma Map_set_all_NoDup (m : list (list N * list N)) a :
  NoDup m.*1 → NoDup (Map_set_all m a).*1.
Proof.
  revert m. induction a as [|[k v] a IH]; intros m Hnd; [done|].
  apply IH. by apply Map_set_NoDup.
Qed.

Lemma Map_get_elem_of (k v : list N) (m : list (list N * list N)) :
  NoDup m.*1 → (k, v) ∈ m ↔ Map_get k m = Some v.
Proof.
  induction m as [|[k0 v0] m IH]; simpl.
  - intros _. split; [by intros ?%elem_of_nil|done].
  - intros [Hk0 Hnd]%NoDup_cons. rewrite elem_of_cons.
    destruct (decide (k0 = k)) as [->|Hne].
    + split; [|intros [= ->]; by left].
      intros [[= ->]|Hin]; [done|]. destruct Hk0.
      apply list_elem_of_fmap. by exists (k, v).
    + rewrite <-IH by done. split; [|by right].
      by intros [[= ? ?]|?].
Qed.

Lemma Map_get_set_all (n : list N) (m : list (list N * list N)) a :
  Map_get n (Map_set_all m a)
  = match last_assigned n a with Some t => Some t | None => Map_get n m end.
Proof.
  revert m. induction a as [|[k v] a IH]; intros m; [done|].
  change (Map_set_all m ((k, v) :: a)) with (Map_set_all (Map_set k v m) a).
  rewrite IH. simpl. destruct (last_assigned n a); [done|].
  rewrite Map_get_set. by destruct (decide (k = n)).
Qed.

Lemma last_assigned_elem_of (n t : list N) a :
  last_assigned n a = Some t → (n, t) ∈ a.
Proof.
  induction a as [|[k v] a IH]; simpl; [done|].
  destruct (last_assigned n a) as [t'|].
  - intros [= ->]. right. by apply IH.
  - case_decide; [|done]. intros [= ->]. subst. left.
Qed.

Lemma last_assigned_is_Some (n : list N) a :
  n ∈ a.*1 → is_Some (last_assigned n a).
Proof.
  induction a as [|[k v] a IH]; simpl; [by intros ?%elem_of_nil|].
  intros [->|Hin]%elem_of_cons.
  - destruct (last_assigned k a); [done|]. by rewrite decide_True.
  - destruct (IH Hin) as [t ->]. done.
Qed.

(** ** One enumeration *)

Section Registry.
Context `{LowerCase}.

Lemma forEach_shortcut_assignments (names : list (list N)) (m : list (list N * list N))
    (existing : gset (list N)) :
  forEach_shortcut names m existing = Map_set_all m <$> assignments names existing.
Proof.
  revert m existing. induction names as [|name names IH]; intros m existing; [done|].
  simpl. destruct (generateUniqueSanitizedName name existing) as [u|]; [|done].
  simpl. rewrite IH. by destruct (assignments names _).
Qed.

Lemma assignments_names (names : list (list N)) (existing : gset (list N))
    (a : list (list N * list N)) :
  assignments names existing = Some a → a.*1 = names.
Proof.
  revert existing a. induction names as [|name names IH]; intros existing a; simpl.
  - by intros [= <-].
  - destruct (generateUniqueSanitizedName name existing) as [u|]; [|done]. simpl.
    destruct (assignments names _) as [rest|] eqn:E; [|done].
    intros [= <-]. simpl. f_equal. by eapply IH.
Qed.

(** The tokens handed out in one enumeration are pairwise distinct and
    avoid the tokens claimed before. *)
Lemma assignments_tokens (names : list (list N)) (existing : gset (list N))
    (a : list (list N * list N)) :
  assignments names existing = Some a →
  NoDup a.*2 ∧ ∀ t, t ∈ a.*2 → t ∉ existing.
Proof.
  revert existing a. induction names as [|name names IH]; intros existing a; simpl.
  - intros [= <-]. split; [constructor|]. by intros t ?%elem_of_nil.
  - destruct (generateUniqueSanitizedName name existing) as [u|] eqn:Hu; [|done]. simpl.
    destruct (assignments names _) as [rest|] eqn:E; [|done].
    intros [= <-]. simpl.
    apply IH in E as [Hnd Hfresh].
    apply generateUniqueSanitizedName_result in Hu as [Hu _].
    split.
    + apply NoDup_cons. split; [|done].
      intros Hin%Hfresh. apply Hin, elem_of_union_l. by apply elem_of_singleton.
    + intros t [->|Hin%Hfresh]%elem_of_cons; [done|].
      intros ?. apply Hin. by apply elem_of_union_r.
Qed.

Lemma assignments_is_Some (names : list (list N)) (existing : gset (list N)) :
  (N.of_nat (size existing + length names) ≤ counter_limit)%N →
  is_Some (assignments names existing).
Proof.
  revert existing. induction names as [|name names IH]; intros existing Hsize; [done|].
  simpl in *.
  destruct (generateUniqueSanitizedName_is_Some name existing) as [u Hu]; [lia|].
  rewrite Hu. simpl.
  destruct (IH ({[u]} ∪ existing)) as [rest ->]; [|done].
  pose proof (size_union_alt {[u]} existing) as Hle.
  rewrite size_singleton in Hle.
  assert (size (existing ∖ {[u]}) ≤ size existing)
    by (apply subseteq_size, subseteq_difference_l; done).
  lia.
Qed.

End Registry.

Section RegistryRefresh.
Context `{LowerCase}.

Lemma refresh_assignments (names : list (list N)) (m : list (list N * list N)) :
  refresh names m = Map_set_all m <$> assignments names ∅.
Proof. apply forEach_shortcut_assignments. Qed.

Lemma refresh_is_Some (names : list (list N)) (m : list (list N * list N)) :
  (N.of_nat (length names) ≤ counter_limit)%N →
  ∃ a, assignments names ∅ = Some a ∧ refresh names m = Some (Map_set_all m a).
Proof.
  intros Hlen. destruct (assignments_is_Some names ∅) as [a Ha].
  { rewrite size_empty. simpl. lia. }
  exists a. split; [done|]. by rewrite refresh_assignments, Ha.
Qed.

(** Two entries of one enumeration's assignments with the same token are
    the same entry. *)
Lemma assignments_token_inj (a : list (list N * list N)) (k1 k2 t : list N) :
  NoDup a.*2 → (k1, t) ∈ a → (k2, t) ∈ a → k1 = k2.
Proof.
  induction a as [|[k v] a IH]; [by intros _ ?%elem_of_nil|].
  rewrite fmap_cons. cbn [snd]. intros [Hv Hnd]%NoDup_cons.
  intros [[= -> ->]|H1]%elem_of_cons [[= ?]|H2]%elem_of_cons; subst; try done.
  - destruct Hv. apply list_elem_of_fmap. by exists (k2, v).
  - destruct Hv. apply list_elem_of_fmap. by exists (k1, v).
  - by apply IH.
Qed.

(** A refresh of an empty registry leaves exactly the assignments of that
    enumeration, each name with its last one. *)
Lemma refresh_empty_entries (names : list (list N)) (a m : list (list N * list N)) :
  assignments names ∅ = Some a → refresh names [] = Some m →
  ∀ n t, (n, t) ∈ m ↔ last_assigned n a = Some t.
Proof.
  intros Ha. rewrite refresh_assignments, Ha. intros [= <-] n t.
  rewrite Map_get_elem_of by (apply Map_set_all_NoDup; constructor).
  rewrite Map_get_set_all. by destruct (last_assigned n a).
Qed.

(** After a refresh of an empty registry no two entries share a token. *)
Lemma refresh_empty_token_inj (names : list (list N)) (m : list (list N * list N))
    (k1 k2 t : list N) :
  refresh names [] = Some m → (k1, t) ∈ m → (k2, t) ∈ m → k1 = k2.
Proof.
  intros Hm. pose proof Hm as Hm'.
  rewrite refresh_assignments in Hm'.
  destruct (assignments names ∅) as [a|] eqn:Ha; [|done].
  intros H1 H2.
  apply (refresh_empty_entries _ _ _ Ha Hm), last_assigned_elem_of in H1, H2.
  apply assignments_tokens in Ha as [Hnd _].
  by eapply assignments_token_inj.
Qed.

Lemma find_by_value_unique (m : list (list N * list N)) (n t : list N) :
  (∀ k, (k, t) ∈ m → k = n) → (n, t) ∈ m → find_by_value t m = Some n.
Proof.
  induction m as [|[k v] m IH]; [by intros _ ?%elem_of_nil|].
  intros Huniq Hin. simpl. destruct (decide (v = t)) as [->|Hne].
  - f_equal. apply Huniq. left.
  - apply IH.
    + intros k' Hk'. apply Huniq. by right.
    + apply elem_of_cons in Hin as [[= ? ?]|?]; [by subst|done].
Qed.

(** After a refresh of an empty registry, the reverse lookup by the token
    of an enumerated name gives that name back. *)
Lemma refresh_empty_round_trip (names : list (list N)) (m : list (list N * list N))
    (n : list N) :
  refresh names [] = Some m → n ∈ names →
  ∃ t, Map_get n m = Some t ∧ find_by_value t m = Some n.
Proof.
  intros Hm Hn. pose proof Hm as Hm'.
  rewrite refresh_assignments in Hm'.
  destruct (assignments names ∅) as [a|] eqn:Ha; [|done].
  injection Hm' as <-.
  destruct (last_assigned_is_Some n a) as [t Ht].
  { by rewrite (assignments_names _ _ _ Ha). }
  exists t. split.
  - by rewrite Map_get_set_all, Ht.
  - apply find_by_value_unique.
    + intros k Hk. eapply refresh_empty_token_inj; [done|done|].
      by apply (refresh_empty_entries _ _ _ Ha Hm).
    + by apply (refresh_empty_entries _ _ _ Ha Hm).
Qed.

(** X20. After a refresh completes, every enumerated name carries the
    token of its last assignment in that refresh and every other name the
    token it had before, if any; when the registry held no entry before
    the refresh, its entries are exactly the assignments derived from the
    names enumerated in that refresh; and a refresh does complete for up
    to [2^53] names, the range of the resolver's counter. *)
Theorem refresh_assigns_enumerated_names
    (names : list (list N)) (shortcutMap : list (list N * list N)) :
  ((N.of_nat (length names) ≤ counter_limit)%N →
   is_Some (refresh names shortcutMap))
  ∧ ∀ m, refresh names shortcutMap = Some m →
      ∃ a, assignments names ∅ = Some a
        ∧ (∀ n, n ∈ names → ∃ t, last_assigned n a = Some t ∧ Map_get n m = Some t)
        ∧ (∀ n, n ∉ names → Map_get n m = Map_get n shortcutMap)
        ∧ (shortcutMap = [] → ∀ n t, (n, t) ∈ m ↔ last_assigned n a = Some t).
Proof.
  split.
  - intros Hlen. destruct (refresh_is_Some names shortcutMap Hlen) as (a & _ & ->).
    done.
  - intros m Hm. pose proof Hm as Hm'. rewrite refresh_assignments in Hm'.
    destruct (assignments names ∅) as [a|] eqn:Ha; [|done].
    injection Hm' as <-. exists a. split_and!; [done| | |].
    + intros n Hn. destruct (last_assigned_is_Some n a) as [t Ht].
      { by rewrite (assignments_names _ _ _ Ha). }
      exists t. split; [done|]. by rewrite Map_get_set_all, Ht.
    + intros n Hn. rewrite Map_get_set_all.
      destruct (last_assigned n a) as [t|] eqn:Ht; [|done].
      apply last_assigned_elem_of, (list_elem_of_fmap_2 fst) in Ht.
      rewrite (assignments_names _ _ _ Ha) in Ht. done.
    + intros ->. by apply (refresh_empty_entries names).
Qed.

End RegistryRefresh.

(** ** The tool-call handler *)

Lemma startsWith_app (s p : list N) : startsWith s p = true ↔ ∃ r, s = p ++ r.
Proof.
  revert s. induction p as [|c p IH]; intros s; simpl.
  - split; [intros _; by exists s|done].
  - destruct s as [|d s]; [split; [done|by intros [r ?]]|].
    rewrite andb_true_iff, N.eqb_eq, IH. split.
    + intros [-> [r ->]]. by exists r.
    + intros [r [= -> ->]]. split; [done|]. by exists r.
Qed.

Lemma replace_first_startsWith (s pat rep : list N) :
  startsWith s pat = true → replace_first s pat rep = rep ++ drop (length pat) s.
Proof. intros Hs. destruct s; simpl; by rewrite Hs. Qed.

Lemma find_by_value_None (m : list (list N * list N)) (t : list N) :
  (∀ k v, (k, v) ∈ m → v ≠ t) → find_by_value t m = None.
Proof.
  induction m as [|[k v] m IH]; [done|]. intros Hno. simpl.
  rewrite decide_False by (apply (Hno k); left).
  apply IH. intros k' v' Hin. apply (Hno k'). by right.
Qed.

(** No fixed tool name starts with ["run_shortcut_"]. *)
Lemma startsWith_not_base (name : list N) :
  startsWith name (js "run_shortcut_") = true → isBaseTool name = false.
Proof.
  intros [r ->]%startsWith_app. unfold isBaseTool.
  apply bool_decide_eq_false. rewrite !elem_of_cons, elem_of_nil.
  intros [Heq|[Heq|[Heq|[]]]]; by vm_compute in Heq.
Qed.

Lemma isBaseTool_false (name : list N) :
  isBaseTool name = false →
  name ≠ ToolName.LIST_SHORTCUTS ∧ name ≠ ToolName.OPEN_SHORTCUT
  ∧ name ≠ ToolName.RUN_SHORTCUT.
Proof.
  unfold isBaseTool. rewrite bool_decide_eq_false, !elem_of_cons, elem_of_nil.
  tauto.
Qed.

(** C9. A tool name that cannot be resolved never succeeds silently: when
    it is neither a fixed operation nor, with dynamic tools enabled,
    prefixed with ["run_shortcut_"], the handler fails with
    [MethodNotFound]; when dynamic tools are enabled and it has the prefix
    but what remains after the prefix is the token of no registry entry,
    the handler fails with [InvalidParams]. *)
Theorem callTool_unresolvable (GENERATE_SHORTCUT_TOOLS : bool)
    (shortcutMap : list (list N * list N)) (name : list N)
    (args : list (list N * list N)) :
  (isBaseTool name = false →
   GENERATE_SHORTCUT_TOOLS && startsWith name (js "run_shortcut_") = false →
   callTool GENERATE_SHORTCUT_TOOLS shortcutMap name args = inl MethodNotFound)
  ∧ (GENERATE_SHORTCUT_TOOLS = true →
     startsWith name (js "run_shortcut_") = true →
     (∀ k v, (k, v) ∈ shortcutMap → v ≠ drop (length (js "run_shortcut_")) name) →
     callTool GENERATE_SHORTCUT_TOOLS shortcutMap name args = inl InvalidParams).
Proof.
  split.
  - intros Hbase Hdyn. unfold callTool, isDynamicTool. by rewrite Hbase, Hdyn.
  - intros -> Hpre Hno. pose proof (startsWith_not_base name Hpre) as Hbase.
    unfold callTool, isDynamicTool. rewrite Hbase, Hpre. simpl.
    apply isBaseTool_false in Hbase as (? & ? & ?).
    unfold call_switch, isDynamicTool. rewrite !decide_False by done.
    rewrite Hpre. simpl. rewrite replace_first_startsWith by done.
    by rewrite find_by_value_None.
Qed.

Lemma callTool_unresolvable_witness :
  callTool true [(js "My Shortcut", js "my_shortcut")] (js "close_shortcut") []
    = inl MethodNotFound
  ∧ callTool true [(js "My Shortcut", js "my_shortcut")] (js "run_shortcut_other") []
    = inl InvalidParams.
Proof.
  split.
  - by apply (callTool_unresolvable true).
  - apply (callTool_unresolvable true); [done|done|].
    intros k v [[= -> ->]|[]%elem_of_nil]%elem_of_cons. by vm_compute.
Defined.

(** ** Scenarios *)

Section Scenarios.
Context `{LowerCase}.

(** On ASCII input the sanitizer does not depend on how the lower-casing
    treats other text. *)
Lemma sanitizeShortcutName_ascii (s : list N) :
  Forall (λ c, (c < 128)%N) s →
  sanitizeShortcutName s = @sanitizeShortcutName ascii_LowerCase s.
Proof. intros Hs. unfold sanitizeShortcutName. by rewrite toLowerCase_ascii. Qed.

Lemma generateUniqueSanitizedName_ascii (s : list N) (existing : gset (list N)) :
  Forall (λ c, (c < 128)%N) s →
  generateUniqueSanitizedName s existing
  = @generateUniqueSanitizedName ascii_LowerCase s existing.
Proof.
  intros Hs. unfold generateUniqueSanitizedName.
  by rewrite sanitizeShortcutName_ascii.
Qed.

(** So the evaluations below, made with the ASCII lower-casing on ASCII
    names, hold for every lower-casing. *)
Lemma refresh_ascii (names : list (list N)) (m : list (list N * list N)) :
  Forall (Forall (λ c, (c < 128)%N)) names →
  refresh names m = @refresh ascii_LowerCase names m.
Proof.
  unfold refresh. generalize (∅ : gset (list N)). intros existing Hnames.
  revert m existing. induction Hnames as [|name names Hname _ IH]; intros m existing.
  - done.
  - simpl. rewrite generateUniqueSanitizedName_ascii by done.
    destruct (generateUniqueSanitizedName name existing); simpl; [apply IH|done].
Qed.

(** C8. With ["a"] 51 times and, for each [k] in [1..9], ["a"] 49 times
    followed by ["_k"] claimed, the resolver gives the name ["a"] 60 times
    the token ["a"] 48 times followed by ["_10"], of length 51. *)
Theorem collision_budget_recomputed :
  generateUniqueSanitizedName (String_repeat (js "a") 60)
    (list_to_set
       (String_repeat (js "a") 51
        :: ((λ k, String_repeat (js "a") 49 ++ js "_" ++ Number_toString k)
              <$> [1; 2; 3; 4; 5; 6; 7; 8; 9]%N)))
  = Some (String_repeat (js "a") 48 ++ js "_10")
  ∧ length (String_repeat (js "a") 48 ++ js "_10") = 51.
Proof.
  split; [|done]. unfold generateUniqueSanitizedName.
  rewrite sanitizeShortcutName_ascii.
  - by vm_compute.
  - apply Forall_forall. intros c Hc%list_elem_of_In.
    apply (in_concat (replicate 60 (js "a"))) in Hc as (s & Hs & Hc).
    apply list_elem_of_In, elem_of_replicate in Hs as [-> _].
    apply list_elem_of_In, list_elem_of_singleton in Hc as ->. done.
Qed.

End Scenarios.

(** C1, at the failing input. The catalog lists ["My Shortcut"] and
    ["My-Shortcut"]; then ["My Shortcut"] is deleted and the catalog is
    listed again.  The entry of ["My Shortcut"] is still in the registry
    after the second refresh, though that refresh assigned one token only,
    to ["My-Shortcut"]: the registry is not the assignments of the second
    refresh. *)
Lemma refresh_keeps_earlier_entry :
  ∃ m1 m2,
    refresh [js "My Shortcut"; js "My-Shortcut"] [] = Some m1
    ∧ refresh [js "My-Shortcut"] m1 = Some m2
    ∧ assignments [js "My-Shortcut"] ∅ = Some [(js "My-Shortcut", js "my_shortcut")]
    ∧ (js "My Shortcut", js "my_shortcut") ∈ m2
    ∧ m2 ≠ [(js "My-Shortcut", js "my_shortcut")].
Proof.
  exists [(js "My Shortcut", js "my_shortcut"); (js "My-Shortcut", js "my_shortcut_1")],
    [(js "My Shortcut", js "my_shortcut"); (js "My-Shortcut", js "my_shortcut")].
  split_and!; [by vm_compute..| |done]. left.
Qed.

Lemma refresh_assigns_enumerated_names_witness :
  ∃ a m, assignments [js "My Shortcut"; js "My-Shortcut"] ∅ = Some a
    ∧ refresh [js "My Shortcut"; js "My-Shortcut"] [] = Some m
    ∧ (∀ n, n ∈ [js "My Shortcut"; js "My-Shortcut"] →
         ∃ t, last_assigned n a = Some t ∧ Map_get n m = Some t)
    ∧ (∀ n t, (n, t) ∈ m ↔ last_assigned n a = Some t).
Proof.
  destruct (refresh_assigns_enumerated_names [js "My Shortcut"; js "My-Shortcut"] [])
    as [Hsome Hentries].
  destruct Hsome as [m Hm]; [by vm_compute|].
  destruct (Hentries m Hm) as (a & Ha & Hnames & _ & Hall).
  exists a, m. split_and!; [done|done|done|by apply Hall].
Defined.

(** C2, at the failing input. After the same two refreshes the registry
    holds two entries with the token ["my_shortcut"]. *)
Theorem refresh_twice_shares_token :
  ∃ m1,
    refresh [js "My Shortcut"; js "My-Shortcut"] [] = Some m1
    ∧ refresh [js "My-Shortcut"] m1
      = Some [(js "My Shortcut", js "my_shortcut"); (js "My-Shortcut", js "my_shortcut")].
Proof.
  exists [(js "My Shortcut", js "my_shortcut"); (js "My-Shortcut", js "my_shortcut_1")].
  split; by vm_compute.
Qed.

(** C3, at the failing input. After the same two refreshes the token of
    ["My-Shortcut"] is ["my_shortcut"], the reverse lookup by that token
    gives ["My Shortcut"], and the handler runs ["My Shortcut"] when
    ["run_shortcut_my_shortcut"] is called. *)
Theorem refresh_twice_reverse_lookup :
  ∃ m1 m2,
    refresh [js "My Shortcut"; js "My-Shortcut"] [] = Some m1
    ∧ refresh [js "My-Shortcut"] m1 = Some m2
    ∧ Map_get (js "My-Shortcut") m2 = Some (js "my_shortcut")
    ∧ find_by_value (js "my_shortcut") m2 = Some (js "My Shortcut")
    ∧ callTool true m2 (js "run_shortcut_" ++ js "my_shortcut") []
      = inr (CallRunNamed (js "My Shortcut") None).
Proof.
  exists [(js "My Shortcut", js "my_shortcut"); (js "My-Shortcut", js "my_shortcut_1")],
    [(js "My Shortcut", js "my_shortcut"); (js "My-Shortcut", js "my_shortcut")].
  split_and!; by vm_compute.
Qed.



(** A candidate that fills the budget without a cut: the sanitized name of
    49 code units and the suffix ["_1"]. *)
Example generateUniqueSanitizedName_uncut_at_budget :
  generateUniqueSanitizedName (String_repeat (js "a") 49) {[ String_repeat (js "a") 49 ]}
  = Some (String_repeat (js "a") 49 ++ js "_1")
  ∧ length (String_repeat (js "a") 49 ++ js "_1") = 51
  ∧ double_underscore (String_repeat (js "a") 49 ++ js "_1") = false.
Proof. split_and!; by vm_compute. Qed.

Lemma generateUniqueSanitizedName_unclaimed_within_budget_witness :
  ∃ t, generateUniqueSanitizedName (js "My Shortcut") {[ js "my_shortcut" ]} = Some t
    ∧ (t ∉ ({[ js "my_shortcut" ]} : gset (list N))) ∧ length t ≤ 51.
Proof.
  destruct (generateUniqueSanitizedName_unclaimed_within_budget
              (js "My Shortcut") {[ js "my_shortcut" ]}) as [Hsome Hfresh].
  destruct Hsome as [t Ht]; [by vm_compute|].
  exists t. split; [done|]. exact (Hfresh t Ht).
Defined.

Lemma generateUniqueSanitizedName_terminates_witness :
  ∃ t, generateUniqueSanitizedName (js "My Shortcut") {[ js "my_shortcut" ]} = Some t
    ∧ ∀ fuel, 3 ≤ fuel →
        unique_loop fuel {[ js "my_shortcut" ]} (sanitizeShortcutName (js "My Shortcut"))
          (sanitizeShortcutName (js "My Shortcut")) 1%N = Some t.
Proof.
  destruct (generateUniqueSanitizedName_terminates
              (js "My Shortcut") {[ js "my_shortcut" ]}) as (_ & _ & Hexit).
  destruct Hexit as (t & Ht & Hfuel); [by vm_compute|].
  exists t. split; [done|]. intros fuel Hle. apply Hfuel.
  by rewrite size_singleton.
Defined.

(** ** The cases of the repository's test suite

    The embedding gives the results that [shortcuts.test.ts] expects. *)

Example test_convert_to_lowercase :
  sanitizeShortcutName (js "My Shortcut") = js "my_shortcut".
Proof. by vm_compute. Qed.

Example test_replace_special_characters :
  sanitizeShortcutName (js "hello@world#test") = js "hello_world_test".
Proof. by vm_compute. Qed.

Example test_replace_multiple_underscores :
  sanitizeShortcutName (js "hello___world") = js "hello_world".
Proof. by vm_compute. Qed.

Example test_remove_leading_and_trailing_underscores :
  sanitizeShortcutName (js "_hello_world_") = js "hello_world".
Proof. by vm_compute. Qed.

Example test_preserve_alphanumeric_and_underscores :
  sanitizeShortcutName (js "test_123_abc") = js "test_123_abc".
Proof. by vm_compute. Qed.

Example test_only_special_characters :
  sanitizeShortcutName (js "") = [] ∧ sanitizeShortcutName (js "@#$%") = [].
Proof. split; by vm_compute. Qed.

Example test_truncate_long_names :
  sanitizeShortcutName (String_repeat (js "a") 60) = String_repeat (js "a") 51
  ∧ length (js "run_shortcut_" ++ String_repeat (js "a") 51) = 64.
Proof. split; by vm_compute. Qed.

Example test_truncation_removes_trailing_underscore :
  sanitizeShortcutName (String_repeat (js "a") 50 ++ js "_test")
  = String_repeat (js "a") 50.
Proof. by vm_compute. Qed.

Example test_exactly_at_the_limit :
  sanitizeShortcutName (String_repeat (js "a") 51) = String_repeat (js "a") 51.
Proof. by vm_compute. Qed.

Example test_no_conflict :
  generateUniqueSanitizedName (js "My Shortcut") ∅ = Some (js "my_shortcut").
Proof. by vm_compute. Qed.

Example test_append_1_on_conflict :
  generateUniqueSanitizedName (js "My Shortcut") {[ js "my_shortcut" ]}
  = Some (js "my_shortcut_1").
Proof. by vm_compute. Qed.

Example test_increment_counter :
  generateUniqueSanitizedName (js "My Shortcut")
    (list_to_set [js "my_shortcut"; js "my_shortcut_1"; js "my_shortcut_2"])
  = Some (js "my_shortcut_3").
Proof. by vm_compute. Qed.

Example test_long_name_conflict :
  generateUniqueSanitizedName (String_repeat (js "a") 60)
    {[ String_repeat (js "a") 51 ]}
  = Some (String_repeat (js "a") 49 ++ js "_1").
Proof. by vm_compute. Qed.

Example test_empty_name_conflict :
  generateUniqueSanitizedName (js "@#$%") ∅ = Some []
  ∧ generateUniqueSanitizedName (js "@#$%") {[ [] ]} = Some (js "_1").
Proof. split; by vm_compute. Qed.

(** * Further properties of the code *)

(** ** Reading the catalog *)

Lemma trimStart_suffix (s : list N) : trimStart s `suffix_of` s.
Proof.
  induction s as [|c s IH]; simpl; [done|].
  destruct (is_white_space c); [by apply suffix_cons_r|done].
Qed.

Lemma trimStart_head (s : list N) (c : N) :
  head (trimStart s) = Some c → is_white_space c = false.
Proof.
  induction s as [|d s IH]; simpl; [done|].
  destruct (is_white_space d) eqn:E; [done|]. simpl. by intros [= <-].
Qed.

Lemma trimStart_id (s : list N) :
  (∀ c, head s = Some c → is_white_space c = false) → trimStart s = s.
Proof.
  destruct s as [|c s]; [done|]. simpl. intros Hc. by rewrite (Hc c).
Qed.

Lemma trimStart_nil (s : list N) :
  trimStart s = [] ↔ Forall (λ c, is_white_space c = true) s.
Proof.
  induction s as [|c s IH]; simpl.
  - split; [constructor|done].
  - rewrite Forall_cons. destruct (is_white_space c); [|split; [done|by intros [? _]]].
    rewrite IH. tauto.
Qed.

Lemma trimEnd_prefix (s : list N) : trimEnd s `prefix_of` s.
Proof.
  unfold trimEnd. rewrite <-(reverse_involutive s) at 2.
  apply prefix_suffix_reverse. rewrite !reverse_involutive. apply trimStart_suffix.
Qed.

Lemma trimEnd_last (s : list N) (c : N) :
  last (trimEnd s) = Some c → is_white_space c = false.
Proof. unfold trimEnd. rewrite last_reverse. apply trimStart_head. Qed.

Lemma trimEnd_id (s : list N) :
  (∀ c, last s = Some c → is_white_space c = false) → trimEnd s = s.
Proof.
  intros Hc. unfold trimEnd. rewrite trimStart_id; [apply reverse_involutive|].
  intros c. rewrite head_reverse. apply Hc.
Qed.

(** A trimmed string starts and ends with a code unit that is not white
    space. *)
Lemma trim_head (s : list N) (c : N) :
  head (trim s) = Some c → is_white_space c = false.
Proof.
  unfold trim. intros Hc. apply (trimStart_head s).
  destruct (trimEnd_prefix (trimStart s)) as [k Hk].
  rewrite Hk. by destruct (trimEnd (trimStart s)).
Qed.

Lemma trim_last (s : list N) (c : N) :
  last (trim s) = Some c → is_white_space c = false.
Proof. apply trimEnd_last. Qed.

Lemma trim_id (s : list N) :
  (∀ c, head s = Some c → is_white_space c = false) →
  (∀ c, last s = Some c → is_white_space c = false) → trim s = s.
Proof.
  intros Hh Hl. unfold trim. rewrite trimStart_id by done. by apply trimEnd_id.
Qed.

Lemma trim_idempotent (s : list N) : trim (trim s) = trim s.
Proof. apply trim_id; [apply trim_head|apply trim_last]. Qed.

Lemma trim_elem_of (s : list N) (c : N) : c ∈ trim s → c ∈ s.
Proof.
  unfold trim. intros Hc.
  destruct (trimEnd_prefix (trimStart s)) as [k Hk].
  destruct (trimStart_suffix s) as [k' Hk'].
  rewrite Hk', Hk. apply elem_of_app. right. apply elem_of_app. by left.
Qed.

Lemma trim_nil (s : list N) :
  trim s = [] ↔ Forall (λ c, is_white_space c = true) s.
Proof.
  split.
  - unfold trim, trimEnd. intros Hnil.
    apply (f_equal reverse) in Hnil. rewrite reverse_involutive in Hnil.
    apply trimStart_nil in Hnil. rewrite Forall_reverse in Hnil.
    destruct (trimStart s) as [|c t] eqn:E; [by apply trimStart_nil|].
    apply Forall_cons in Hnil as [Hc _].
    pose proof (trimStart_head s c) as Hhead. rewrite E in Hhead.
    rewrite Hhead in Hc; done.
  - intros Hs%trimStart_nil. unfold trim. by rewrite Hs.
Qed.

Lemma split_line_feed_cons (s : list N) :
  ∃ line lines, split_line_feed s = line :: lines.
Proof.
  destruct s as [|c s]; simpl; [by eauto|].
  destruct (c =? line_feed)%N; [by eauto|].
  destruct (split_line_feed s); by eauto.
Qed.

Lemma split_line_feed_no_line_feed (s : list N) :
  Forall (λ line, line_feed ∉ line) (split_line_feed s).
Proof.
  induction s as [|c s IH]; simpl.
  - constructor; [apply not_elem_of_nil|constructor].
  - destruct (c =? line_feed)%N eqn:E.
    + constructor; [apply not_elem_of_nil|done].
    + apply N.eqb_neq in E. destruct (split_line_feed s) as [|line lines].
      * constructor; [|constructor]. intros Heq%list_elem_of_singleton. by subst.
      * apply Forall_cons in IH as [Hline Hlines]. constructor; [|done].
        intros [Heq|?]%elem_of_cons; [by subst|done].
Qed.

Lemma Array_join_cons (sep s : list N) (l : list (list N)) :
  l ≠ [] → Array_join sep (s :: l) = s ++ sep ++ Array_join sep l.
Proof. by destruct l. Qed.

(** Splitting at line feeds and joining with line feeds are inverse. *)
Lemma join_split_line_feed (s : list N) :
  Array_join [line_feed] (split_line_feed s) = s.
Proof.
  induction s as [|c s IH]; [done|]. simpl.
  destruct (split_line_feed_cons s) as (line & lines & Hs). rewrite Hs in *.
  destruct (c =? line_feed)%N eqn:E.
  - apply N.eqb_eq in E as ->. rewrite Array_join_cons by done. by rewrite IH.
  - destruct lines as [|line' lines].
    + simpl in *. by subst.
    + rewrite Array_join_cons by done. rewrite Array_join_cons in IH by done.
      by rewrite <-IH.
Qed.

Lemma split_line_feed_app (line : list N) (s : list N) :
  line_feed ∉ line →
  split_line_feed (line ++ line_feed :: s) = line :: split_line_feed s.
Proof.
  induction line as [|c line IH]; intros Hline; simpl.
  - done.
  - rewrite not_elem_of_cons in Hline. destruct Hline as [Hc Hline].
    apply not_eq_sym, N.eqb_neq in Hc. by rewrite Hc, IH.
Qed.

Lemma split_line_feed_line (line : list N) :
  line_feed ∉ line → split_line_feed line = [line].
Proof.
  induction line as [|c line IH]; intros Hline; simpl; [done|].
  rewrite not_elem_of_cons in Hline. destruct Hline as [Hc Hline].
  apply not_eq_sym, N.eqb_neq in Hc. by rewrite Hc, IH.
Qed.

Lemma split_join_line_feed (lines : list (list N)) :
  lines ≠ [] → Forall (λ line, line_feed ∉ line) lines →
  split_line_feed (Array_join [line_feed] lines) = lines.
Proof.
  induction lines as [|line [|line' lines] IH]; intros Hne Hlines; [done| |].
  - simpl. apply split_line_feed_line. by apply Forall_cons in Hlines as [? _].
  - apply Forall_cons in Hlines as [Hline Hlines].
    rewrite Array_join_cons by done. simpl app.
    rewrite split_line_feed_app by done. f_equal. by apply IH.
Qed.

Lemma split_line_feed_snoc (s : list N) :
  split_line_feed (s ++ [line_feed]) = split_line_feed s ++ [[]].
Proof.
  induction s as [|c s IH]; [done|]. simpl.
  destruct (c =? line_feed)%N; rewrite IH; [done|].
  by destruct (split_line_feed_cons s) as (line & lines & ->).
Qed.

Lemma split_line_feed_elem_of (s line : list N) (c : N) :
  line ∈ split_line_feed s → c ∈ line → c ∈ s.
Proof.
  intros Hline Hc. rewrite <-(join_split_line_feed s).
  revert Hline. generalize (split_line_feed s). intros lines.
  induction lines as [|l lines IH]; [by intros ?%elem_of_nil|].
  intros [->|Hin]%elem_of_cons.
  - destruct lines; [done|]. rewrite Array_join_cons by done.
    apply elem_of_app. by left.
  - destruct lines as [|l' lines]; [by apply elem_of_nil in Hin|].
    rewrite Array_join_cons by done. rewrite !elem_of_app. right. right. by apply IH.
Qed.

Lemma shortcut_names_nonempty (stdout name : list N) :
  name ∈ shortcut_names stdout → name ≠ [].
Proof.
  unfold shortcut_names. intros (line & -> & Hline)%list_elem_of_fmap.
  by apply list_elem_of_filter in Hline as [Hne _].
Qed.

Lemma shortcut_names_white_space (stdout : list N) :
  Forall (λ c, is_white_space c = true) stdout → shortcut_names stdout = [].
Proof.
  intros Hws. unfold shortcut_names.
  assert (Forall (λ line, trim line = []) (split_line_feed stdout)) as Hlines.
  { apply Forall_forall. intros line Hline.
    apply trim_nil, Forall_forall. intros c Hc.
    rewrite Forall_forall in Hws. apply Hws.
    by eapply split_line_feed_elem_of. }
  induction Hlines as [|line lines Hline _ IH]; [done|].
  rewrite filter_cons_False; [exact IH|]. intros Hne. by apply Hne.
Qed.

(** X1. Every name read from the output of [shortcuts list] is non-empty,
    starts and ends with a code unit that is not white space (trimming it
    again changes nothing) and contains no line feed. *)
Theorem shortcut_names_trimmed (stdout name : list N) :
  name ∈ shortcut_names stdout →
  name ≠ []
  ∧ trim name = name
  ∧ (∀ c, head name = Some c ∨ last name = Some c → is_white_space c = false)
  ∧ line_feed ∉ name.
Proof.
  intros Hname. pose proof (shortcut_names_nonempty _ _ Hname) as Hne.
  unfold shortcut_names in Hname.
  apply list_elem_of_fmap in Hname as (line & -> & Hline).
  apply list_elem_of_filter in Hline as [_ Hline]. split_and!.
  - done.
  - apply trim_idempotent.
  - intros c [Hc|Hc]; [by eapply trim_head|by eapply trim_last].
  - intros Hlf%trim_elem_of.
    pose proof (split_line_feed_no_line_feed stdout) as Hall.
    rewrite Forall_forall in Hall. by apply (Hall line).
Qed.

Lemma shortcut_names_trimmed_witness :
  js "My Shortcut" ∈ shortcut_names (js "  My Shortcut " ++ [line_feed])
  ∧ js "My Shortcut" ≠ []
  ∧ trim (js "My Shortcut") = js "My Shortcut"
  ∧ (∀ c, head (js "My Shortcut") = Some c ∨ last (js "My Shortcut") = Some c →
          is_white_space c = false)
  ∧ line_feed ∉ js "My Shortcut".
Proof.
  assert (js "My Shortcut" ∈ shortcut_names (js "  My Shortcut " ++ [line_feed]))
    as Hin by (vm_compute; left).
  split; [exact Hin|]. exact (shortcut_names_trimmed _ _ Hin).
Defined.

(** X2. Reading is the inverse of printing: names that are non-empty,
    trimmed and free of line feeds, printed one per line, are read back
    unchanged, with or without a line feed after the last one. *)
Theorem shortcut_names_join (names : list (list N)) :
  Forall (λ name, name ≠ [] ∧ trim name = name ∧ line_feed ∉ name) names →
  shortcut_names (Array_join [line_feed] names) = names
  ∧ shortcut_names (Array_join [line_feed] names ++ [line_feed]) = names.
Proof.
  intros Hnames.
  assert (∀ lines, filter (λ line : list N, trim line ≠ []) (names ++ lines)
                   = names ++ filter (λ line, trim line ≠ []) lines) as Hfilter.
  { intros lines. rewrite filter_app. f_equal.
    clear -Hnames. induction Hnames as [|name names (Hne & Htrim & _) _ IH]; [done|].
    rewrite filter_cons_True by by rewrite Htrim. by f_equal. }
  assert (trim <$> names = names) as Htrim.
  { clear -Hnames. induction Hnames as [|name names (_ & Htrim & _) _ IH]; [done|].
    rewrite fmap_cons. by f_equal. }
  assert (Forall (λ line, line_feed ∉ line) names) as Hlf.
  { eapply Forall_impl; [done|]. by intros name (_ & _ & ?). }
  unfold shortcut_names. rewrite split_line_feed_snoc.
  destruct (decide (names = [])) as [->|Hne]; [done|].
  rewrite split_join_line_feed by done.
  pose proof (Hfilter []) as Hnil. rewrite app_nil_r in Hnil.
  rewrite Hnil, Hfilter. rewrite app_nil_r.
  rewrite filter_cons_False by (intros Hne'; by apply Hne').
  by rewrite app_nil_r.
Qed.

Lemma shortcut_names_join_witness :
  Forall (λ name, name ≠ [] ∧ trim name = name ∧ line_feed ∉ name)
    [js "My Shortcut"; js "Other"]
  ∧ shortcut_names (Array_join [line_feed] [js "My Shortcut"; js "Other"])
    = [js "My Shortcut"; js "Other"]
  ∧ shortcut_names (Array_join [line_feed] [js "My Shortcut"; js "Other"] ++ [line_feed])
    = [js "My Shortcut"; js "Other"].
Proof.
  assert (Forall (λ name, name ≠ [] ∧ trim name = name ∧ line_feed ∉ name)
            [js "My Shortcut"; js "Other"]) as Hnames.
  { apply Forall_cons. split; [|apply Forall_cons; split; [|by apply Forall_nil]].
    - split_and!; [done|by vm_compute|].
      apply (bool_decide_unpack _). by vm_compute.
    - split_and!; [done|by vm_compute|].
      apply (bool_decide_unpack _). by vm_compute. }
  split; [exact Hnames|]. exact (shortcut_names_join _ Hnames).
Defined.

Section CatalogListing.
Context `{LowerCase}.

(** X3. When the command fails, and when it writes anything to stderr
    (whatever it printed), [listShortcuts] rejects with [InternalError] and
    leaves the registry exactly as it was; when the command prints nothing
    but white space, the registry is left as it was too, and the promise
    resolves with an empty list. *)
Theorem listShortcuts_nothing_listed (r : ExecResult) (shortcutMap : list (list N * list N)) :
  is_Some (exec_error r) ∨ exec_stderr r ≠ []
  ∨ Forall (λ c, is_white_space c = true) (exec_stdout r) →
  listShortcuts (list_outcome r) shortcutMap = Some shortcutMap
  ∧ (is_Some (exec_error r) ∨ exec_stderr r ≠ [] →
     listShortcuts_settles (list_outcome r) shortcutMap
     = Some (inl (McpError InternalError)))
  ∧ (exec_error r = None → exec_stderr r = [] →
     listShortcuts_settles (list_outcome r) shortcutMap = Some (inr [])).
Proof.
  unfold list_outcome. intros Hcases. split_and!.
  - destruct Hcases as [[e He]|[Herr|Hws]].
    + by rewrite He.
    + destruct (exec_error r); [done|]. by rewrite decide_False.
    + destruct (exec_error r); [done|]. case_decide; [|done].
      simpl. by rewrite shortcut_names_white_space.
  - intros [[e He]|Herr].
    + by rewrite He.
    + destruct (exec_error r); [done|]. by rewrite decide_False.
  - intros Hnone Herr. rewrite Hnone, decide_True by done.
    destruct Hcases as [[e He]|[?|Hws]]; [congruence|done|].
    simpl. by rewrite shortcut_names_white_space.
Qed.

End CatalogListing.

Lemma listShortcuts_nothing_listed_witness :
  (is_Some (exec_error {| exec_error := None; exec_stdout := js "My Shortcut";
                          exec_stderr := js "warning" |})
   ∨ exec_stderr {| exec_error := None; exec_stdout := js "My Shortcut";
                    exec_stderr := js "warning" |} ≠ []
   ∨ Forall (λ c, is_white_space c = true)
       (exec_stdout {| exec_error := None; exec_stdout := js "My Shortcut";
                       exec_stderr := js "warning" |}))
  ∧ listShortcuts
      (list_outcome {| exec_error := None; exec_stdout := js "My Shortcut";
                       exec_stderr := js "warning" |})
      [(js "Old", js "old")]
    = Some [(js "Old", js "old")]
  ∧ listShortcuts_settles
      (list_outcome {| exec_error := None; exec_stdout := js "My Shortcut";
                       exec_stderr := js "warning" |})
      [(js "Old", js "old")]
    = Some (inl (McpError InternalError)).
Proof.
  assert (exec_stderr {| exec_error := None; exec_stdout := js "My Shortcut";
                         exec_stderr := js "warning" |} ≠ []) as Herr by done.
  split; [by right; left|].
  destruct (listShortcuts_nothing_listed
              {| exec_error := None; exec_stdout := js "My Shortcut";
                 exec_stderr := js "warning" |}
              [(js "Old", js "old")] (or_intror (or_introl Herr)))
    as (Hmap & Hrejects & _).
  split; [exact Hmap|]. apply Hrejects. by right.
Defined.

(** ** More about the sanitizer *)

Lemma length_replace_trailing_underscore_ge (s : list N) :
  length s - 1 ≤ length (replace_trailing_underscore s).
Proof.
  unfold replace_trailing_underscore.
  destruct (last s) as [c|]; [destruct (is_underscore c)|]; rewrite ?length_take; lia.
Qed.

Lemma replace_trailing_underscore_prefix (s : list N) :
  replace_trailing_underscore s `prefix_of` s.
Proof.
  destruct (replace_trailing_underscore_take s) as [n ->]. apply prefix_take.
Qed.

Lemma replace_underscore_runs_elem_of (s : list N) (c : N) :
  c ∈ s → is_underscore c = false → c ∈ replace_underscore_runs s.
Proof.
  intros Hin Hc. induction s as [|d s IH]; [done|]. simpl.
  apply elem_of_cons in Hin as [->|Hin].
  - rewrite Hc. simpl. left.
  - destruct (is_underscore d && leading_underscore s); [by apply IH|].
    right. by apply IH.
Qed.

Lemma replace_trailing_underscore_elem_of (s : list N) (c : N) :
  c ∈ s → is_underscore c = false → c ∈ replace_trailing_underscore s.
Proof.
  intros Hin Hc. unfold replace_trailing_underscore.
  destruct (last s) as [d|] eqn:E; [|done].
  destruct (is_underscore d) eqn:Hd; [|done].
  apply last_Some in E as [t ->]. rewrite length_app. simpl.
  replace (length t + 1 - 1) with (length t) by lia. rewrite take_app_length.
  apply elem_of_app in Hin as [?|Hin%list_elem_of_singleton]; [done|]. congruence.
Qed.

Lemma replace_edge_underscores_elem_of (s : list N) (c : N) :
  c ∈ s → is_underscore c = false → c ∈ replace_edge_underscores s.
Proof.
  intros Hin Hc. destruct s as [|d s]; [done|]. simpl.
  destruct (is_underscore d) eqn:Hd;
    apply replace_trailing_underscore_elem_of; try done.
  apply elem_of_cons in Hin as [->|?]; [congruence|done].
Qed.

Lemma replace_underscore_runs_all (s : list N) :
  Forall (λ c, is_underscore c = true) s →
  replace_edge_underscores (replace_underscore_runs s) = [].
Proof.
  induction 1 as [|c s Hc Hs IH]; [done|]. simpl. rewrite Hc. simpl.
  destruct s as [|d s]; [simpl; by rewrite Hc|].
  apply Forall_cons in Hs as [Hd _]. simpl leading_underscore. by rewrite Hd.
Qed.

Section SanitizerMore.
Context `{LowerCase}.

(** X4. The strings the sanitizer leaves unchanged are exactly the tokens
    within the budget: code units of [[a-z0-9_]], no underscore at either
    end, no two consecutive underscores, at most 51 code units. *)
Theorem sanitizeShortcutName_fixed_points (t : list N) :
  sanitizeShortcutName t = t ↔ well_formed_token t = true ∧ length t ≤ 51.
Proof.
  split.
  - intros <-. split; [apply sanitizeShortcutName_well_formed|].
    apply sanitizeShortcutName_length.
  - intros [Hwf Hlen]. by apply sanitizeShortcutName_id.
Qed.

(** X5. A name is sanitized to the empty token exactly when, lower-cased,
    it contains no code unit of [[a-z0-9]]. *)
Theorem sanitizeShortcutName_empty (s : list N) :
  sanitizeShortcutName s = []
  ↔ Forall (λ c, is_token_unit c && negb (is_underscore c) = false) (toLowerCase s).
Proof.
  assert (Forall (λ c, is_token_unit c && negb (is_underscore c) = false) (toLowerCase s)
          ↔ Forall (λ c, is_underscore c = true) (replace_non_token (toLowerCase s)))
    as ->.
  { unfold replace_non_token. rewrite Forall_fmap. apply Forall_proper; [|done].
    intros c. simpl. destruct (is_token_unit c) eqn:E; simpl.
    - by destruct (is_underscore c).
    - done. }
  set (u := replace_non_token (toLowerCase s)).
  unfold sanitizeShortcutName. fold u. split.
  - intros Hnil. apply Forall_forall. intros c Hc.
    destruct (is_underscore c) eqn:E; [done|]. exfalso.
    set (w := replace_edge_underscores (replace_underscore_runs u)) in *.
    assert (c ∈ w) as Hw.
    { apply replace_edge_underscores_elem_of; [|done].
      by apply replace_underscore_runs_elem_of. }
    assert (well_formed_token w = true) as Hwf.
    { apply well_formed_replace_edge; [|apply double_underscore_runs].
      apply token_units_runs, token_units_replace_non_token. }
    apply well_formed_token_spec in Hwf as (_ & Hlead & _ & _).
    destruct (_ >? _)%Z; [|by rewrite Hnil in Hw; apply elem_of_nil in Hw].
    rewrite substring_0 in Hnil.
    destruct w as [|d w]; [by apply elem_of_nil in Hw|].
    pose proof (length_replace_trailing_underscore_ge (take (Z.to_nat maxSanitizedLength) (d :: w)))
      as Hge.
    rewrite Hnil in Hge. rewrite maxSanitizedLength_51 in *.
    change (Z.to_nat 51) with 51 in *. simpl in Hge.
    destruct w as [|e w]; [|simpl in Hge; lia].
    simpl in Hlead. unfold replace_trailing_underscore in Hnil. simpl in Hnil.
    by rewrite Hlead in Hnil.
  - intros Hall. by rewrite replace_underscore_runs_all.
Qed.

(** X6. Truncation keeps the front: a sanitized form of at most 51 code
    units is returned whole; a longer one is cut to its first 50 code
    units when the 51st is an underscore, and to its first 51 code units
    otherwise. *)
Theorem sanitizeShortcutName_truncation (s : list N) :
  let whole :=
    replace_edge_underscores
      (replace_underscore_runs (replace_non_token (toLowerCase s))) in
  (length whole ≤ 51 → sanitizeShortcutName s = whole)
  ∧ (51 < length whole →
     sanitizeShortcutName s
     = if bool_decide (whole !! 50 = Some underscore) then take 50 whole
       else take 51 whole).
Proof.
  intros whole. unfold sanitizeShortcutName. fold whole.
  rewrite maxSanitizedLength_51. split; intros Hlen.
  - destruct (_ >? _)%Z eqn:E; [|done]. apply Z.gtb_lt in E. lia.
  - destruct (_ >? _)%Z eqn:E; [|rewrite Z.gtb_ltb in E; apply Z.ltb_ge in E; lia].
    rewrite substring_0. change (Z.to_nat 51) with 51.
    assert (last (take 51 whole) = whole !! 50) as Hlast.
    { rewrite last_lookup, length_take, Nat.min_l by lia. simpl.
      by rewrite lookup_take_lt by lia. }
    unfold replace_trailing_underscore. rewrite Hlast.
    destruct (whole !! 50) as [c|] eqn:Hc.
    + unfold is_underscore. destruct (c =? underscore)%N eqn:Heq.
      * apply N.eqb_eq in Heq as ->. rewrite bool_decide_eq_true_2 by done.
        rewrite length_take, Nat.min_l by lia. simpl. by rewrite take_take.
      * apply N.eqb_neq in Heq. rewrite bool_decide_eq_false_2; [done|].
        intros [= ->]. done.
    + apply lookup_ge_None in Hc. lia.
Qed.

End SanitizerMore.

(** ** More about the resolver *)

(** What the loop returns is the string it was entered with, when that is
    not claimed, and otherwise the candidate of the first counter from
    [c] on whose candidate is not claimed. *)
Lemma unique_loop_first (existing : gset (list N)) (base : list N) (f : nat)
    (u : list N) (c : N) (t : list N) :
  (c ≤ counter_limit)%N →
  unique_loop f existing base u c = Some t →
  ((u ∉ existing) ∧ t = u)
  ∨ ((u ∈ existing)
     ∧ ∃ k, (c ≤ k ≤ counter_limit)%N ∧ t = suffixed base k
            ∧ (suffixed base k ∉ existing)
            ∧ ∀ j, (c ≤ j < k)%N → suffixed base j ∈ existing).
Proof.
  revert u c. induction f as [|f IH]; intros u c Hc; simpl; [done|].
  case_decide as Hu; [|intros [= <-]; by left].
  intros Hloop. right. split; [done|].
  apply IH in Hloop as [[Hfree ->]|(Hin & k & Hk & -> & Hfree & Hbelow)];
    [| |by apply increment_le].
  - exists c. split; [lia|]. split; [done|]. split; [done|]. intros j Hj. lia.
  - destruct (decide (c = counter_limit)) as [->|Hne].
    + rewrite increment_limit in Hk. assert (k = counter_limit) as -> by lia. done.
    + rewrite increment_below in * by lia.
      exists k. split; [lia|]. split; [done|]. split; [done|].
      intros j Hj. destruct (decide (j = c)) as [->|?]; [done|].
      apply Hbelow. lia.
Qed.

Section ResolverMore.
Context `{LowerCase}.

(** X7. The resolver returns the sanitized name itself when that is not
    claimed, and otherwise the candidate of the least counter, from 1 on,
    whose candidate is not claimed. *)
Theorem generateUniqueSanitizedName_first_free
    (name : list N) (claimed : gset (list N)) (t : list N) :
  generateUniqueSanitizedName name claimed = Some t →
  ((sanitizeShortcutName name ∉ claimed) ∧ t = sanitizeShortcutName name)
  ∨ ((sanitizeShortcutName name ∈ claimed)
     ∧ ∃ k, (1 ≤ k)%N ∧ t = suffixed (sanitizeShortcutName name) k
            ∧ (suffixed (sanitizeShortcutName name) k ∉ claimed)
            ∧ ∀ j, (1 ≤ j < k)%N → suffixed (sanitizeShortcutName name) j ∈ claimed).
Proof.
  intros [?|(Hin & k & Hk & ? & ? & ?)]%unique_loop_first; [by left| |done].
  right. split; [done|]. exists k. split; [lia|]. by split_and!.
Qed.

(** X8. The counters grow: when the sanitized name is claimed and the
    returned token is claimed in turn, the next token for the same name
    carries a strictly larger counter. *)
Theorem generateUniqueSanitizedName_counter_grows
    (name : list N) (claimed : gset (list N)) (t1 t2 : list N) :
  sanitizeShortcutName name ∈ claimed →
  generateUniqueSanitizedName name claimed = Some t1 →
  generateUniqueSanitizedName name ({[t1]} ∪ claimed) = Some t2 →
  ∃ k1 k2, t1 = suffixed (sanitizeShortcutName name) k1
           ∧ t2 = suffixed (sanitizeShortcutName name) k2
           ∧ (k1 < k2)%N.
Proof.
  intros Hbase
    [[? _]|(_ & k1 & Hk1 & -> & Hfree1 & Hbelow1)]%unique_loop_first
    [[Hfree _]|(_ & k2 & Hk2 & -> & Hfree2 & Hbelow2)]%unique_loop_first;
    try done.
  - destruct Hfree. by apply elem_of_union_r.
  - exists k1, k2. split; [done|]. split; [done|].
    destruct (decide (k1 < k2)%N) as [?|Hge]; [done|]. exfalso.
    destruct (decide (k2 = k1)) as [->|Hne].
    + apply Hfree2, elem_of_union_l. by apply elem_of_singleton.
    + apply Hfree2, elem_of_union_r, Hbelow1. lia.
Qed.

End ResolverMore.

Lemma generateUniqueSanitizedName_first_free_witness :
  generateUniqueSanitizedName (js "My Shortcut") {[ js "my_shortcut" ]}
  = Some (js "my_shortcut_1")
  ∧ (((sanitizeShortcutName (js "My Shortcut") ∉ ({[ js "my_shortcut" ]} : gset (list N)))
      ∧ js "my_shortcut_1" = sanitizeShortcutName (js "My Shortcut"))
     ∨ ((sanitizeShortcutName (js "My Shortcut") ∈ ({[ js "my_shortcut" ]} : gset (list N)))
        ∧ ∃ k, (1 ≤ k)%N
            ∧ js "my_shortcut_1" = suffixed (sanitizeShortcutName (js "My Shortcut")) k
            ∧ (suffixed (sanitizeShortcutName (js "My Shortcut")) k
               ∉ ({[ js "my_shortcut" ]} : gset (list N)))
            ∧ ∀ j, (1 ≤ j < k)%N →
                suffixed (sanitizeShortcutName (js "My Shortcut")) j
                ∈ ({[ js "my_shortcut" ]} : gset (list N)))).
Proof.
  assert (generateUniqueSanitizedName (js "My Shortcut") {[ js "my_shortcut" ]}
          = Some (js "my_shortcut_1")) as Ht by (by vm_compute).
  split; [exact Ht|]. exact (generateUniqueSanitizedName_first_free _ _ _ Ht).
Defined.

Lemma generateUniqueSanitizedName_counter_grows_witness :
  ((sanitizeShortcutName (js "My Shortcut") ∈ ({[ js "my_shortcut" ]} : gset (list N)))
   ∧ generateUniqueSanitizedName (js "My Shortcut") {[ js "my_shortcut" ]}
     = Some (js "my_shortcut_1")
   ∧ generateUniqueSanitizedName (js "My Shortcut")
       ({[ js "my_shortcut_1" ]} ∪ {[ js "my_shortcut" ]})
     = Some (js "my_shortcut_2"))
  ∧ ∃ k1 k2, js "my_shortcut_1" = suffixed (sanitizeShortcutName (js "My Shortcut")) k1
             ∧ js "my_shortcut_2" = suffixed (sanitizeShortcutName (js "My Shortcut")) k2
             ∧ (k1 < k2)%N.
Proof.
  assert (sanitizeShortcutName (js "My Shortcut")
          ∈ ({[ js "my_shortcut" ]} : gset (list N))) as Hbase.
  { apply (bool_decide_unpack _). by vm_compute. }
  assert (generateUniqueSanitizedName (js "My Shortcut") {[ js "my_shortcut" ]}
          = Some (js "my_shortcut_1")) as Ht1 by (by vm_compute).
  assert (generateUniqueSanitizedName (js "My Shortcut")
            ({[ js "my_shortcut_1" ]} ∪ {[ js "my_shortcut" ]})
          = Some (js "my_shortcut_2")) as Ht2 by (by vm_compute).
  split; [by split_and!|].
  exact (generateUniqueSanitizedName_counter_grows _ _ _ _ Hbase Ht1 Ht2).
Defined.

(** ** More about the registry *)

Lemma Map_get_None (k : list N) (m : list (list N * list N)) :
  k ∉ m.*1 → Map_get k m = None.
Proof.
  induction m as [|[k0 v0] m IH]; [done|]. rewrite fmap_cons. cbn [fst].
  intros [Hne Hk]%not_elem_of_cons. simpl.
  rewrite decide_False by done. by apply IH.
Qed.

(** Two maps with the same keys in the same order and the same value for
    each key are the same map. *)
Lemma Map_ext (m1 m2 : list (list N * list N)) :
  m1.*1 = m2.*1 → NoDup m1.*1 → (∀ k, Map_get k m1 = Map_get k m2) → m1 = m2.
Proof.
  revert m2. induction m1 as [|[k v] m1 IH]; intros [|[k' v'] m2]; try done.
  rewrite !fmap_cons. cbn [fst]. intros [= <- Hkeys] [Hk Hnd]%NoDup_cons Hget.
  pose proof (Hget k) as Hv. simpl in Hv. rewrite !decide_True in Hv by done.
  injection Hv as <-. f_equal. apply IH; [done|done|].
  intros k'. destruct (decide (k = k')) as [<-|Hne].
  - rewrite !Map_get_None; [done|by rewrite <-Hkeys|done].
  - specialize (Hget k'). simpl in Hget. by rewrite !decide_False in Hget.
Qed.

Lemma Map_set_all_keys_elem_of (m a : list (list N * list N)) (k : list N) :
  k ∈ (Map_set_all m a).*1 ↔ k ∈ m.*1 ∨ k ∈ a.*1.
Proof.
  revert m. induction a as [|[k0 v0] a IH]; intros m.
  - simpl. rewrite elem_of_nil. tauto.
  - change (Map_set_all m ((k0, v0) :: a)) with (Map_set_all (Map_set k0 v0 m) a).
    rewrite IH, Map_set_keys, fmap_cons, elem_of_cons. cbn [fst].
    case_decide as Hin; [|rewrite elem_of_app, list_elem_of_singleton].
    + split; [tauto|]. intros [?|[->|?]]; tauto.
    + tauto.
Qed.

Lemma Map_set_all_keys_prefix (m a : list (list N * list N)) :
  m.*1 `prefix_of` (Map_set_all m a).*1.
Proof.
  revert m. induction a as [|[k0 v0] a IH]; intros m; [done|].
  change (Map_set_all m ((k0, v0) :: a)) with (Map_set_all (Map_set k0 v0 m) a).
  etrans; [|apply IH]. rewrite Map_set_keys.
  case_decide; [done|]. by apply prefix_app_r.
Qed.

Lemma Map_set_all_keys_id (m a : list (list N * list N)) :
  (∀ k, k ∈ a.*1 → k ∈ m.*1) → (Map_set_all m a).*1 = m.*1.
Proof.
  revert m. induction a as [|[k0 v0] a IH]; intros m Hsub; [done|].
  change (Map_set_all m ((k0, v0) :: a)) with (Map_set_all (Map_set k0 v0 m) a).
  assert ((Map_set k0 v0 m).*1 = m.*1) as Hkeys.
  { rewrite Map_set_keys, decide_True; [done|]. apply Hsub. left. }
  rewrite IH, Hkeys; [done|]. intros k Hk. rewrite Hkeys. apply Hsub. by right.
Qed.

Lemma Map_set_all_elem_of (m a : list (list N * list N)) (k v : list N) :
  (k, v) ∈ Map_set_all m a → (k, v) ∈ m ∨ (k, v) ∈ a.
Proof.
  revert m. induction a as [|[k0 v0] a IH]; intros m; [by left|].
  change (Map_set_all m ((k0, v0) :: a)) with (Map_set_all (Map_set k0 v0 m) a).
  intros [Hin|Hin]%IH; [|right; by right].
  clear IH. induction m as [|[k1 v1] m IHm]; simpl in Hin.
  - apply list_elem_of_singleton in Hin as [= -> ->]. right. left.
  - destruct (decide (k1 = k0)) as [->|Hne].
    + apply elem_of_cons in Hin as [[= -> ->]|Hin]; [right; left|left; by right].
    + apply elem_of_cons in Hin as [[= -> ->]|Hin]; [left; left|].
      destruct (IHm Hin) as [?|?]; [left; by right|by right].
Qed.

Lemma last_assigned_None (n : list N) (a : list (list N * list N)) :
  n ∉ a.*1 → last_assigned n a = None.
Proof.
  induction a as [|[k v] a IH]; [done|]. rewrite fmap_cons. cbn [fst].
  intros [Hne Hn]%not_elem_of_cons. simpl. rewrite IH by done.
  by rewrite decide_False.
Qed.

Section RegistryMore.
Context `{LowerCase}.

Lemma refresh_Some_assignments (names : list (list N)) (m m' : list (list N * list N)) :
  refresh names m = Some m' →
  ∃ a, assignments names ∅ = Some a ∧ m' = Map_set_all m a ∧ a.*1 = names.
Proof.
  rewrite refresh_assignments.
  destruct (assignments names ∅) as [a|] eqn:Ha; [|done].
  intros [= <-]. exists a. split_and!; [done|done|]. by eapply assignments_names.
Qed.

(** X9. A refresh only adds and overwrites.  The names of the map stay
    unique and keep their order, with new names appended; afterwards the
    map holds the names it held before and the enumerated ones, and no
    others; a name that is not enumerated keeps its token. *)
Theorem refresh_adds_and_overwrites
    (names : list (list N)) (m m' : list (list N * list N)) :
  refresh names m = Some m' → NoDup m.*1 →
  NoDup m'.*1
  ∧ m.*1 `prefix_of` m'.*1
  ∧ (∀ k, k ∈ m'.*1 ↔ k ∈ m.*1 ∨ k ∈ names)
  ∧ (∀ k, k ∉ names → Map_get k m' = Map_get k m).
Proof.
  intros (a & Ha & -> & Hnames)%refresh_Some_assignments Hnd. split_and!.
  - by apply Map_set_all_NoDup.
  - apply Map_set_all_keys_prefix.
  - intros k. by rewrite Map_set_all_keys_elem_of, Hnames.
  - intros k Hk. rewrite Map_get_set_all, last_assigned_None; [done|].
    by rewrite Hnames.
Qed.

(** X10. Refreshing again with the same names changes nothing: the map
    that a refresh leaves is a fixed point of that refresh. *)
Theorem refresh_idempotent (names : list (list N)) (m m' : list (list N * list N)) :
  refresh names m = Some m' → NoDup m.*1 → refresh names m' = Some m'.
Proof.
  intros (a & Ha & -> & Hnames)%refresh_Some_assignments Hnd.
  rewrite refresh_assignments, Ha. simpl. f_equal.
  assert ((Map_set_all (Map_set_all m a) a).*1 = (Map_set_all m a).*1) as Hkeys.
  { apply Map_set_all_keys_id. intros k Hk.
    apply Map_set_all_keys_elem_of. by right. }
  apply Map_ext; [done| |].
  - rewrite Hkeys. by apply Map_set_all_NoDup.
  - intros k. rewrite !Map_get_set_all. by destruct (last_assigned k a).
Qed.

End RegistryMore.

Lemma refresh_adds_and_overwrites_witness :
  (refresh [js "My-Shortcut"; js "New"] [(js "My Shortcut", js "my_shortcut")]
   = Some [(js "My Shortcut", js "my_shortcut"); (js "My-Shortcut", js "my_shortcut");
           (js "New", js "new")]
   ∧ NoDup [(js "My Shortcut", js "my_shortcut")].*1)
  ∧ NoDup [(js "My Shortcut", js "my_shortcut"); (js "My-Shortcut", js "my_shortcut");
           (js "New", js "new")].*1
  ∧ [(js "My Shortcut", js "my_shortcut")].*1
    `prefix_of` [(js "My Shortcut", js "my_shortcut"); (js "My-Shortcut", js "my_shortcut");
                 (js "New", js "new")].*1
  ∧ (∀ k, k ∈ [(js "My Shortcut", js "my_shortcut"); (js "My-Shortcut", js "my_shortcut");
               (js "New", js "new")].*1
          ↔ k ∈ [(js "My Shortcut", js "my_shortcut")].*1
            ∨ k ∈ [js "My-Shortcut"; js "New"])
  ∧ (∀ k, k ∉ [js "My-Shortcut"; js "New"] →
          Map_get k [(js "My Shortcut", js "my_shortcut");
                     (js "My-Shortcut", js "my_shortcut"); (js "New", js "new")]
          = Map_get k [(js "My Shortcut", js "my_shortcut")]).
Proof.
  assert (refresh [js "My-Shortcut"; js "New"] [(js "My Shortcut", js "my_shortcut")]
          = Some [(js "My Shortcut", js "my_shortcut");
                  (js "My-Shortcut", js "my_shortcut"); (js "New", js "new")])
    as Hm by (by vm_compute).
  assert (NoDup [(js "My Shortcut", js "my_shortcut")].*1) as Hnd
    by (apply NoDup_singleton).
  split; [by split|]. exact (refresh_adds_and_overwrites _ _ _ Hm Hnd).
Defined.

Lemma refresh_idempotent_witness :
  (refresh [js "My Shortcut"; js "My-Shortcut"] []
   = Some [(js "My Shortcut", js "my_shortcut"); (js "My-Shortcut", js "my_shortcut_1")]
   ∧ NoDup (@nil (list N * list N)).*1)
  ∧ refresh [js "My Shortcut"; js "My-Shortcut"]
      [(js "My Shortcut", js "my_shortcut"); (js "My-Shortcut", js "my_shortcut_1")]
    = Some [(js "My Shortcut", js "my_shortcut"); (js "My-Shortcut", js "my_shortcut_1")].
Proof.
  assert (refresh [js "My Shortcut"; js "My-Shortcut"] []
          = Some [(js "My Shortcut", js "my_shortcut");
                  (js "My-Shortcut", js "my_shortcut_1")]) as Hm by (by vm_compute).
  assert (NoDup (@nil (list N * list N)).*1) as Hnd by (apply NoDup_nil_2).
  split; [by split|]. exact (refresh_idempotent _ _ _ Hm Hnd).
Defined.

(** ** The tool list and the handler together *)

Lemma replace_first_prefixed (p t : list N) : replace_first (p ++ t) p [] = t.
Proof.
  rewrite replace_first_startsWith by (apply startsWith_app; by exists t).
  by rewrite drop_app_length.
Qed.

Lemma find_by_value_Some (m : list (list N * list N)) (k v : list N) :
  (k, v) ∈ m → ∃ k', find_by_value v m = Some k' ∧ (k', v) ∈ m.
Proof.
  induction m as [|[k0 v0] m IH]; [by intros ?%elem_of_nil|].
  intros Hin. simpl. destruct (decide (v0 = v)) as [->|Hne].
  - exists k0. split; [done|left].
  - apply elem_of_cons in Hin as [[= ? ?]|Hin]; [by subst|].
    destruct (IH Hin) as (k' & ? & ?). exists k'. split; [done|by right].
Qed.

Lemma find_by_value_elem_of (m : list (list N * list N)) (k v : list N) :
  find_by_value v m = Some k → (k, v) ∈ m.
Proof.
  induction m as [|[k0 v0] m IH]; [done|]. simpl.
  destruct (decide (v0 = v)) as [->|Hne].
  - intros [= ->]. left.
  - intros ?%IH. by right.
Qed.

(** The dynamic branch of the handler, for a name made of the prefix and
    a token. *)
Lemma callTool_dynamic (m args : list (list N * list N)) (token : list N) :
  callTool true m (js "run_shortcut_" ++ token) args
  = match find_by_value token m with
    | Some (c :: n) => inr (CallRunNamed (c :: n) (Map_get (js "input") args))
    | _ => inl InvalidParams
    end.
Proof.
  assert (startsWith (js "run_shortcut_" ++ token) (js "run_shortcut_") = true) as Hpre.
  { apply startsWith_app. by exists token. }
  assert (replace_first (js "run_shortcut_" ++ token) (js "run_shortcut_") [] = token)
    as Hstrip by apply replace_first_prefixed.
  revert Hpre Hstrip. generalize (js "run_shortcut_" ++ token). intros name Hpre Hstrip.
  pose proof (startsWith_not_base _ Hpre) as Hbase.
  unfold callTool, isDynamicTool. rewrite Hbase, Hpre. simpl.
  apply isBaseTool_false in Hbase as (? & ? & ?).
  unfold call_switch, isDynamicTool. rewrite !decide_False by done.
  rewrite Hpre. simpl. rewrite Hstrip.
  by destruct (find_by_value token m) as [[|c n]|].
Qed.


Section ToolsAndHandler.
Context `{LowerCase}.

Lemma assignments_tokens_budget (names : list (list N)) (existing : gset (list N))
    (a : list (list N * list N)) :
  assignments names existing = Some a →
  Forall (λ e, token_units e.2 = true ∧ length e.2 ≤ 51) a.
Proof.
  revert existing a. induction names as [|name names IH]; intros existing a; simpl.
  - intros [= <-]. constructor.
  - destruct (generateUniqueSanitizedName name existing) as [u|] eqn:Hu; [|done]. simpl.
    destruct (assignments names _) as [rest|] eqn:E; [|done].
    intros [= <-]. constructor; [|by eapply IH]. simpl. split.
    + by eapply generateUniqueSanitizedName_charset.
    + by eapply generateUniqueSanitizedName_length.
Qed.

Lemma refresh_tokens_budget (names : list (list N)) (m m' : list (list N * list N)) :
  Forall (λ e, token_units e.2 = true ∧ length e.2 ≤ 51) m →
  refresh names m = Some m' →
  Forall (λ e, token_units e.2 = true ∧ length e.2 ≤ 51) m'.
Proof.
  intros Hm. rewrite refresh_assignments.
  destruct (assignments names ∅) as [a|] eqn:Ha; [|done]. intros [= <-].
  apply assignments_tokens_budget in Ha.
  rewrite Forall_forall in Hm, Ha. apply Forall_forall.
  intros [k v] [Hin|Hin]%Map_set_all_elem_of; [by apply Hm|by apply Ha].
Qed.

Lemma refreshes_tokens_budget (catalogs : list (list (list N)))
    (m m' : list (list N * list N)) :
  Forall (λ e, token_units e.2 = true ∧ length e.2 ≤ 51) m →
  refreshes catalogs m = Some m' →
  Forall (λ e, token_units e.2 = true ∧ length e.2 ≤ 51) m'.
Proof.
  revert m. induction catalogs as [|names catalogs IH]; intros m Hm; simpl.
  - by intros [= <-].
  - destruct (refresh names m) as [m1|] eqn:E; [|done]. simpl.
    apply IH. by eapply refresh_tokens_budget.
Qed.

(** X12. Whatever catalogs were listed since the start, every dynamic tool
    of the tool list has a name of at most 64 code units, all of them in
    [[a-z0-9_]], starting with ["run_shortcut_"]. *)
Theorem dynamic_tool_names_within_limit (catalogs : list (list (list N)))
    (m : list (list N * list N)) (tool : Tool) :
  refreshes catalogs [] = Some m →
  tool ∈ getDynamicShortcutTools m →
  length (tool_name tool) ≤ 64
  ∧ token_units (tool_name tool) = true
  ∧ startsWith (tool_name tool) (js "run_shortcut_") = true.
Proof.
  intros Hm Htool.
  apply refreshes_tokens_budget in Hm; [|constructor].
  apply list_elem_of_fmap in Htool as ([k v] & -> & Hin).
  rewrite Forall_forall in Hm. destruct (Hm _ Hin) as [Hunits Hlen].
  cbn [tool_name snd] in *. split_and!.
  - rewrite length_app. change (length (js "run_shortcut_")) with 13. lia.
  - by rewrite token_units_app, Hunits.
  - apply startsWith_app. by exists v.
Qed.


(** X14. Every tool of the tool list can be called: when no name in the
    registry is empty, the handler resolves each listed name to an
    operation, and a dynamic one to a registry entry with its token. *)
Theorem listed_tools_are_callable (GENERATE_SHORTCUT_TOOLS INJECT_SHORTCUT_LIST : bool)
    (m args : list (list N * list N)) (tool : Tool) :
  Forall (λ e, e.1 ≠ []) m →
  tool ∈ listTools GENERATE_SHORTCUT_TOOLS INJECT_SHORTCUT_LIST m →
  ∃ call, callTool GENERATE_SHORTCUT_TOOLS m (tool_name tool) args = inr call
    ∧ ∀ shortcutName input, call = CallRunNamed shortcutName input →
        ∃ token, tool_name tool = js "run_shortcut_" ++ token
                 ∧ (shortcutName, token) ∈ m.
Proof.
  intros Hnames [Hbase|Hdyn]%elem_of_app.
  - unfold getBaseTools in Hbase.
    rewrite !elem_of_cons, elem_of_nil in Hbase.
    destruct Hbase as [->|[->|[->|[]]]]; simpl;
      destruct GENERATE_SHORTCUT_TOOLS; by eexists.
  - destruct GENERATE_SHORTCUT_TOOLS; [|by apply elem_of_nil in Hdyn].
    apply list_elem_of_fmap in Hdyn as ([k v] & -> & Hin). cbn [tool_name snd].
    destruct (find_by_value_Some m k v Hin) as (k' & Hfind & Hin').
    rewrite callTool_dynamic, Hfind.
    rewrite Forall_forall in Hnames. pose proof (Hnames _ Hin') as Hne.
    destruct k' as [|c n]; [done|]. eexists. split; [done|].
    intros shortcutName input [= <- _]. by exists v.
Qed.

(** X15. After a refresh of an empty registry the tool list holds no two
    tools with the same name. *)
Theorem listed_tool_names_distinct (GENERATE_SHORTCUT_TOOLS INJECT_SHORTCUT_LIST : bool)
    (names : list (list N)) (m : list (list N * list N)) :
  refresh names [] = Some m →
  NoDup (tool_name <$> listTools GENERATE_SHORTCUT_TOOLS INJECT_SHORTCUT_LIST m).
Proof.
  intros Hm. unfold listTools. rewrite fmap_app. apply NoDup_app. split_and!.
  - unfold getBaseTools. simpl. apply (bool_decide_unpack _). by vm_compute.
  - intros name Hbase Hdyn.
    destruct GENERATE_SHORTCUT_TOOLS; [|by apply elem_of_nil in Hdyn].
    apply list_elem_of_fmap in Hdyn as (tool & -> & Htool).
    apply list_elem_of_fmap in Htool as ([k v] & -> & Hin).
    cbn [tool_name snd] in Hbase.
    assert (isBaseTool (js "run_shortcut_" ++ v) = false) as Hnot.
    { apply startsWith_not_base, startsWith_app. by exists v. }
    unfold isBaseTool in Hnot. apply bool_decide_eq_false in Hnot.
    apply Hnot. unfold getBaseTools in Hbase. simpl in Hbase. exact Hbase.
  - destruct GENERATE_SHORTCUT_TOOLS; [|constructor].
    unfold getDynamicShortcutTools. rewrite <-list_fmap_compose.
    apply NoDup_fmap_2_strong.
    + intros [k1 v1] [k2 v2] H1 H2. cbn [compose tool_name snd].
      intros Heq%app_inv_head. subst.
      f_equal. by eapply refresh_empty_token_inj.
    + apply (NoDup_fmap_1 fst).
      apply refresh_Some_assignments in Hm as (a & _ & -> & _).
      apply Map_set_all_NoDup. constructor.
Qed.

End ToolsAndHandler.

Lemma dynamic_tool_names_within_limit_witness :
  (refreshes [[js "My Shortcut"; js "My-Shortcut"]; [js "My-Shortcut"]] []
   = Some [(js "My Shortcut", js "my_shortcut"); (js "My-Shortcut", js "my_shortcut")]
   ∧ {| tool_name := js "run_shortcut_my_shortcut";
        tool_description := js "Run the " ++ [double_quote] ++ js "My-Shortcut"
                            ++ [double_quote] ++ js " shortcut" |}
     ∈ getDynamicShortcutTools
         [(js "My Shortcut", js "my_shortcut"); (js "My-Shortcut", js "my_shortcut")])
  ∧ length (js "run_shortcut_my_shortcut") ≤ 64
  ∧ token_units (js "run_shortcut_my_shortcut") = true
  ∧ startsWith (js "run_shortcut_my_shortcut") (js "run_shortcut_") = true.
Proof.
  assert (refreshes [[js "My Shortcut"; js "My-Shortcut"]; [js "My-Shortcut"]] []
          = Some [(js "My Shortcut", js "my_shortcut");
                  (js "My-Shortcut", js "my_shortcut")]) as Hm by (by vm_compute).
  assert ({| tool_name := js "run_shortcut_my_shortcut";
             tool_description := js "Run the " ++ [double_quote] ++ js "My-Shortcut"
                                 ++ [double_quote] ++ js " shortcut" |}
          ∈ getDynamicShortcutTools
              [(js "My Shortcut", js "my_shortcut"); (js "My-Shortcut", js "my_shortcut")])
    as Htool by (vm_compute; right; left).
  split; [by split|]. exact (dynamic_tool_names_within_limit _ _ _ Hm Htool).
Defined.


Lemma listed_tools_are_callable_witness :
  (Forall (λ e : list N * list N, e.1 ≠ [])
     [(js "My Shortcut", js "my_shortcut"); (js "My-Shortcut", js "my_shortcut")]
   ∧ {| tool_name := js "run_shortcut_my_shortcut";
        tool_description := js "Run the " ++ [double_quote] ++ js "My-Shortcut"
                            ++ [double_quote] ++ js " shortcut" |}
     ∈ listTools true false
         [(js "My Shortcut", js "my_shortcut"); (js "My-Shortcut", js "my_shortcut")])
  ∧ ∃ call,
      callTool true
        [(js "My Shortcut", js "my_shortcut"); (js "My-Shortcut", js "my_shortcut")]
        (js "run_shortcut_my_shortcut") []
      = inr call
      ∧ ∀ shortcutName input, call = CallRunNamed shortcutName input →
          ∃ token, js "run_shortcut_my_shortcut" = js "run_shortcut_" ++ token
                   ∧ (shortcutName, token)
                     ∈ [(js "My Shortcut", js "my_shortcut");
                        (js "My-Shortcut", js "my_shortcut")].
Proof.
  assert (Forall (λ e : list N * list N, e.1 ≠ [])
            [(js "My Shortcut", js "my_shortcut"); (js "My-Shortcut", js "my_shortcut")])
    as Hnames.
  { apply Forall_cons. split; [done|]. apply Forall_cons. split; [done|]. by apply Forall_nil. }
  assert ({| tool_name := js "run_shortcut_my_shortcut";
             tool_description := js "Run the " ++ [double_quote] ++ js "My-Shortcut"
                                 ++ [double_quote] ++ js " shortcut" |}
          ∈ listTools true false
              [(js "My Shortcut", js "my_shortcut"); (js "My-Shortcut", js "my_shortcut")])
    as Htool by (vm_compute; do 4 right; left).
  split; [by split|].
  exact (listed_tools_are_callable true false _ [] _ Hnames Htool).
Defined.

Lemma listed_tool_names_distinct_witness :
  refresh [js "My Shortcut"; js "My-Shortcut"] []
  = Some [(js "My Shortcut", js "my_shortcut"); (js "My-Shortcut", js "my_shortcut_1")]
  ∧ NoDup (tool_name <$> listTools true true
             [(js "My Shortcut", js "my_shortcut"); (js "My-Shortcut", js "my_shortcut_1")]).
Proof.
  assert (refresh [js "My Shortcut"; js "My-Shortcut"] []
          = Some [(js "My Shortcut", js "my_shortcut");
                  (js "My-Shortcut", js "my_shortcut_1")]) as Hm by (by vm_compute).
  split; [exact Hm|]. exact (listed_tool_names_distinct true true _ _ Hm).
Defined.

(** ** The execution bridge *)

Lemma exec_command_eq (name path : list N) :
  exec_command name path
  = js "shortcuts run " ++ quoted name ++ js " --input-path " ++ quoted path
    ++ js " | cat".
Proof. reflexivity. Qed.

Lemma input_or_space_truthy (input : option Json) :
  ToBoolean (input_or_space input) = true.
Proof.
  destruct input as [v|]; [|done]. simpl.
  by destruct (ToBoolean v) eqn:Hv.
Qed.

(** The input that [runShortcut] works with is the given one, or one space
    when none or a falsy one is given. *)
Lemma input_or_space_cases (input : option Json) :
  input = Some (input_or_space input)
  ∨ input_or_space input = JsonString (js " ")
    ∧ (input = None ∨ ∃ v, input = Some v ∧ ToBoolean v = false).
Proof.
  destruct input as [v|]; [|right; auto]. simpl.
  destruct (ToBoolean v) eqn:Hv; [by left|right; eauto].
Qed.

(** Only a string is found by [fs.existsSync], and a string can be
    printed. *)
Lemma fs_existsSync_ToString (print : spec_float → list N)
    (exists_file : list N → bool) (input : Json) :
  fs_existsSync exists_file input = true → is_Some (ToString print input).
Proof. by destruct input. Qed.

Lemma runShortcut_written (print : spec_float → list N)
    (exists_file : list N → bool) (writeFileSync : list N → Json → bool) (now : N)
    (params : RunShortcutInput) (path : list N) (content : Json) (command : list N) :
  runShortcut print exists_file writeFileSync now params
  = RunExecs (Some (path, content)) command →
  path = tmpPath now
  ∧ content = input_or_space (run_input params)
  ∧ includes content = Some false
  ∧ writeFileSync path content = true
  ∧ ∃ name, template print (run_name params) = Some name
            ∧ command = exec_command name path.
Proof.
  unfold runShortcut.
  destruct (template print (run_name params)) as [name|]; [|done].
  destruct (includes (input_or_space (run_input params))) as [[]|] eqn:Hincludes;
    [|destruct (writeFileSync _ _) eqn:Hwrite|]; [|intros [= <- <- <-]; eauto 10|done..].
  destruct (negb _); destruct (ToString _ _); done.
Qed.

(** X16. [runShortcut] throws before it calls [exec] in these cases and
    no others.  It throws an [McpError] with the code [InvalidParams] when
    the input, after [|| " "], includes ["/"] and names no existing file.
    It throws another error, which the handler turns into [InternalError],
    when [params.name] cannot be printed, when the input is neither a
    string nor an array ([input.includes] is not a function), when an array
    that includes ["/"] cannot be printed into the message, and when the
    temporary file cannot be written. *)
Theorem runShortcut_throws (print : spec_float → list N)
    (exists_file : list N → bool) (writeFileSync : list N → Json → bool) (now : N)
    (params : RunShortcutInput) (error : Thrown) :
  runShortcut print exists_file writeFileSync now params = RunThrows error ↔
    (error = McpError InvalidParams
     ∧ is_Some (template print (run_name params))
     ∧ includes (input_or_space (run_input params)) = Some true
     ∧ fs_existsSync exists_file (input_or_space (run_input params)) = false
     ∧ is_Some (ToString print (input_or_space (run_input params))))
    ∨ (error = OtherError
       ∧ (template print (run_name params) = None
          ∨ includes (input_or_space (run_input params)) = None
          ∨ (includes (input_or_space (run_input params)) = Some true
             ∧ ToString print (input_or_space (run_input params)) = None)
          ∨ (includes (input_or_space (run_input params)) = Some false
             ∧ writeFileSync (tmpPath now) (input_or_space (run_input params)) = false))).
Proof.
  unfold runShortcut.
  pose proof (fs_existsSync_ToString print exists_file (input_or_space (run_input params)))
    as Hexists.
  destruct (template print (run_name params)) as [name|].
  2:{ split; [intros [= <-]; right; auto|].
      intros [(_ & [? [=]] & _)|[-> _]]; done. }
  destruct (includes (input_or_space (run_input params))) as [[]|].
  - destruct (fs_existsSync _ _); cbn [negb].
    + destruct Hexists as [path ->]; [done|]. split; [done|].
      intros [(_ & _ & _ & [=] & _)|(_ & [[=]|[[=]|[[_ [=]]|[[=] _]]]])].
    + destruct (ToString _ _) as [text|].
      * split; [intros [= <-]; left; eauto 10|].
        intros [(-> & _)|(_ & [[=]|[[=]|[[_ [=]]|[[=] _]]]])]. done.
      * split; [intros [= <-]; right; eauto 10|].
        intros [(_ & _ & _ & _ & [? [=]])|(-> & _)]. done.
  - destruct (writeFileSync _ _).
    + split; [done|].
      intros [(_ & _ & [=] & _)|(_ & [[=]|[[=]|[[[=] _]|[_ [=]]]]])].
    + split; [intros [= <-]; right; eauto 10|].
      intros [(_ & _ & [=] & _)|(-> & _)]. done.
  - split; [intros [= <-]; right; eauto 10|].
    intros [(_ & _ & [=] & _)|(-> & _)]. done.
Qed.

(** X17. Data is passed through a temporary file only when it includes no
    slash: what [runShortcut] writes is the given input, or one space when
    the input is missing or falsy (an empty string); written text is never
    empty and never contains a slash; the write succeeded, and the command
    then reads the file that was written. *)
Theorem runShortcut_inline_text (print : spec_float → list N)
    (exists_file : list N → bool) (writeFileSync : list N → Json → bool) (now : N)
    (params : RunShortcutInput) (path : list N) (content : Json) (command : list N) :
  runShortcut print exists_file writeFileSync now params
  = RunExecs (Some (path, content)) command →
  includes content = Some false
  ∧ ToBoolean content = true
  ∧ (run_input params = Some content
     ∨ content = JsonString (js " ")
       ∧ (run_input params = None
          ∨ ∃ v, run_input params = Some v ∧ ToBoolean v = false))
  ∧ (∀ text, content = JsonString text → text ≠ [] ∧ includes_slash text = false)
  ∧ writeFileSync path content = true
  ∧ ∃ name, template print (run_name params) = Some name
            ∧ command = js "shortcuts run " ++ quoted name
                        ++ js " --input-path " ++ quoted path ++ js " | cat".
Proof.
  intros (-> & -> & Hincludes & Hwrite & name & Hname & ->)%runShortcut_written.
  pose proof (input_or_space_truthy (run_input params)) as Htruthy.
  split_and!; [done|done| | |done|].
  - destruct (input_or_space_cases (run_input params)) as [Heq|Hspace];
      [by left|by right].
  - intros text Htext. rewrite Htext in Hincludes, Htruthy. simpl in *.
    split; [by apply bool_decide_eq_true in Htruthy|by injection Hincludes].
  - exists name. by rewrite exec_command_eq.
Qed.

(** X18. The temporary file is named by the clock alone: two runs that
    write their input to a file write to the same path exactly when they
    read the same millisecond. *)
Theorem runShortcut_temporary_path (print1 print2 : spec_float → list N)
    (exists_file1 exists_file2 : list N → bool)
    (writeFileSync1 writeFileSync2 : list N → Json → bool)
    (now1 now2 : N) (params1 params2 : RunShortcutInput)
    (path1 path2 : list N) (content1 content2 : Json) (command1 command2 : list N) :
  runShortcut print1 exists_file1 writeFileSync1 now1 params1
  = RunExecs (Some (path1, content1)) command1 →
  runShortcut print2 exists_file2 writeFileSync2 now2 params2
  = RunExecs (Some (path2, content2)) command2 →
  path1 = path2 ↔ now1 = now2.
Proof.
  intros (-> & _)%runShortcut_written (-> & _)%runShortcut_written.
  split; [|by intros ->].
  unfold tmpPath. intros Heq. do 3 apply app_inv_head in Heq.
  by apply Number_toString_inj.
Qed.

(** X19. Called as the dynamic branch of the handler calls it, with the
    name of a shortcut and a string or no input, [runShortcut] throws
    before it calls [exec] in two cases only: [InvalidParams] for an input
    with a slash that names no existing file, and the error of
    [fs.writeFileSync] when the input, or the space that stands for a
    missing or empty one, cannot be written. *)
Theorem runShortcut_named_throws (print : spec_float → list N)
    (exists_file : list N → bool) (writeFileSync : list N → Json → bool) (now : N)
    (shortcutName : list N) (input : option (list N)) (error : Thrown) :
  runShortcut print exists_file writeFileSync now (named_params shortcutName input)
  = RunThrows error ↔
    (error = McpError InvalidParams
     ∧ ∃ path, input = Some path ∧ includes_slash path = true
               ∧ exists_file path = false)
    ∨ (error = OtherError
       ∧ ∃ text, (input = Some text ∧ text ≠ []
                  ∨ text = js " " ∧ (input = None ∨ input = Some []))
                 ∧ includes_slash text = false
                 ∧ writeFileSync (tmpPath now) (JsonString text) = false).
Proof.
  assert (∃ text, input_or_space (JsonString <$> input) = JsonString text
                  ∧ (input = Some text ∧ text ≠ []
                     ∨ text = js " " ∧ (input = None ∨ input = Some [])))
    as (text & Htext & Hinput).
  { destruct input as [[|c i]|]; simpl.
    - exists (js " "). auto.
    - exists (c :: i). auto.
    - exists (js " "). auto. }
  assert (∀ text', (input = Some text' ∧ text' ≠ []
                    ∨ text' = js " " ∧ (input = None ∨ input = Some [])) → text' = text)
    as Hunique.
  { intros text' [[Heq Hne]|[-> Hmissing]];
      destruct Hinput as [[Heq' Hne']|[-> Hmissing']].
    - congruence.
    - destruct Hmissing'; congruence.
    - destruct Hmissing; congruence.
    - done. }
  rewrite runShortcut_throws. cbn [named_params run_name run_input template ToString].
  rewrite Htext. cbn [includes ToString fs_existsSync]. split.
  - intros [(-> & _ & [= Hslash] & Hexists & _)|(-> & Hother)].
    + left. split; [done|]. exists text. split_and!; [|done..].
      destruct Hinput as [[-> _]|[-> _]]; [done|]. by vm_compute in Hslash.
    + right. split; [done|]. exists text.
      destruct Hother as [[=]|[[=]|[[_ [=]]|[[= Hslash] Hwrite]]]]. done.
  - intros [(-> & path & -> & Hslash & Hexists)|(-> & text' & Hcases & Hslash & Hwrite)].
    + assert (path = text) as ->.
      { apply Hunique. left. split; [done|]. by intros ->. }
      left. split_and!; [done|by eexists|by rewrite Hslash|done|by eexists].
    + apply Hunique in Hcases as ->. right. split; [done|].
      do 3 right. by rewrite Hslash.
Qed.

Lemma runShortcut_inline_text_witness :
  runShortcut (λ _, js "0") (λ _, false) (λ _ _, true) 1234
    {| run_name := Some (JsonString (js "My Shortcut"));
       run_input := Some (JsonString (js "hello")) |}
  = RunExecs (Some (js "/tmp/shortcut-input-1234", JsonString (js "hello")))
      (js "shortcuts run 'My Shortcut' --input-path '/tmp/shortcut-input-1234' | cat")
  ∧ includes (JsonString (js "hello")) = Some false
  ∧ ToBoolean (JsonString (js "hello")) = true
  ∧ js "hello" ≠ []
  ∧ includes_slash (js "hello") = false.
Proof.
  assert (runShortcut (λ _, js "0") (λ _, false) (λ _ _, true) 1234
            {| run_name := Some (JsonString (js "My Shortcut"));
               run_input := Some (JsonString (js "hello")) |}
          = RunExecs (Some (js "/tmp/shortcut-input-1234", JsonString (js "hello")))
              (js "shortcuts run 'My Shortcut' --input-path '/tmp/shortcut-input-1234' | cat"))
    as Hrun by (by vm_compute).
  split; [exact Hrun|].
  destruct (runShortcut_inline_text _ _ _ _ _ _ _ _ Hrun)
    as (Hincludes & Htruthy & _ & Htext & _ & _).
  split; [exact Hincludes|]. split; [exact Htruthy|]. exact (Htext _ eq_refl).
Defined.

Lemma runShortcut_temporary_path_witness :
  (runShortcut (λ _, js "0") (λ _, false) (λ _ _, true) 1234
     {| run_name := Some (JsonString (js "A"));
        run_input := Some (JsonString (js "hello")) |}
   = RunExecs (Some (js "/tmp/shortcut-input-1234", JsonString (js "hello")))
       (js "shortcuts run 'A' --input-path '/tmp/shortcut-input-1234' | cat")
   ∧ runShortcut (λ _, js "0") (λ _, true) (λ _ _, true) 1234
       {| run_name := Some (JsonString (js "B")); run_input := None |}
     = RunExecs (Some (js "/tmp/shortcut-input-1234", JsonString (js " ")))
         (js "shortcuts run 'B' --input-path '/tmp/shortcut-input-1234' | cat"))
  ∧ (js "/tmp/shortcut-input-1234" = js "/tmp/shortcut-input-1234" ↔ 1234%N = 1234%N).
Proof.
  assert (runShortcut (λ _, js "0") (λ _, false) (λ _ _, true) 1234
            {| run_name := Some (JsonString (js "A"));
               run_input := Some (JsonString (js "hello")) |}
          = RunExecs (Some (js "/tmp/shortcut-input-1234", JsonString (js "hello")))
              (js "shortcuts run 'A' --input-path '/tmp/shortcut-input-1234' | cat"))
    as Hrun1 by (by vm_compute).
  assert (runShortcut (λ _, js "0") (λ _, true) (λ _ _, true) 1234
            {| run_name := Some (JsonString (js "B")); run_input := None |}
          = RunExecs (Some (js "/tmp/shortcut-input-1234", JsonString (js " ")))
              (js "shortcuts run 'B' --input-path '/tmp/shortcut-input-1234' | cat"))
    as Hrun2 by (by vm_compute).
  split; [by split|].
  exact (runShortcut_temporary_path _ _ _ _ _ _ _ _ _ _ _ _ _ _ _ _ Hrun1 Hrun2).
Defined.

(** Runs of [runShortcut] on inputs of every kind: a path that does not
    exist, a path that exists, a number, an empty string that cannot be
    written, an array that includes ["/"], an array that cannot be printed,
    and a name that cannot be printed. *)
Example runShortcut_runs :
  let run := runShortcut (λ _, js "5") (λ path, bool_decide (path = js "/etc/hosts")) in
  let named name input := {| run_name := Some (JsonString (js name)); run_input := input |} in
  run (λ _ _, true) 1234%N (named "A" (Some (JsonString (js "/nowhere"))))
  = RunThrows (McpError InvalidParams)
  ∧ run (λ _ _, true) 1234%N (named "A" (Some (JsonString (js "/etc/hosts"))))
    = RunExecs None (js "shortcuts run 'A' --input-path '/etc/hosts' | cat")
  ∧ run (λ _ _, true) 1234%N (named "A" (Some (JsonNumber (S754_finite false 5 0))))
    = RunThrows OtherError
  ∧ run (λ _ _, true) 1234%N (named "A" (Some (JsonNumber (S754_zero false))))
    = RunExecs (Some (js "/tmp/shortcut-input-1234", JsonString (js " ")))
        (js "shortcuts run 'A' --input-path '/tmp/shortcut-input-1234' | cat")
  ∧ run (λ _ _, false) 1234%N (named "A" (Some (JsonString [])))
    = RunThrows OtherError
  ∧ run (λ _ _, true) 1234%N (named "A" (Some (JsonArray [JsonString (js "/")])))
    = RunThrows (McpError InvalidParams)
  ∧ run (λ _ _, true) 1234%N
      (named "A" (Some (JsonArray [JsonString (js "/");
                                   JsonObject [(js "toString", JsonNull)]])))
    = RunThrows OtherError
  ∧ run (λ _ _, true) 1234%N
      {| run_name := Some (JsonObject [(js "toString", JsonNull)]); run_input := None |}
    = RunThrows OtherError
  ∧ run (λ _ _, true) 1234%N {| run_name := None; run_input := None |}
    = RunExecs (Some (js "/tmp/shortcut-input-1234", JsonString (js " ")))
        (js "shortcuts run 'undefined' --input-path '/tmp/shortcut-input-1234' | cat").
Proof. by vm_compute. Qed.
